(** * solo: doublet score calibration and threshold selection

    A shallow embedding of the numeric core of [solo/solo.py] ([main],
    lines 235-293): the softmax of the classifier logits, the log-odds
    calibration loop and the selection of the doublet-call threshold.

    Numbers.  The program computes on numpy [float64] values and on Python
    floats.  They are embedded as exact real numbers extended with the
    IEEE-754 special values ([+inf], [-inf], [nan]): an operation on finite
    operands whose mathematical result is defined returns that result
    exactly, and the special cases (division by zero, logarithm of zero or
    of a negative number, arithmetic on infinities, comparisons with [nan])
    follow numpy.  Rounding, overflow and underflow of finite results, and
    the sign of zero, are outside the embedding.  A strict inequality
    between two results, or a result strictly inside an interval, is
    therefore a statement on the exact values: rounding can turn it into an
    equality or move the result onto the end of the interval, while [<=]
    and closed intervals are kept.  Where rounding decides whether the
    program raises, at the target prevalence of line 258, the line is
    computed in IEEE binary64 as well ([Binary64]). *)

From Stdlib Require Import Reals Lra Lia List ZArith Bool Permutation Sorted.
From Stdlib Require String Ascii Floats.
Import ListNotations.

Open Scope R_scope.

(** ** Exceptions and results *)

Inductive exn : Type :=
| ZeroDivisionError
| AssertionError
| ValueError
| OverflowError.

Inductive result (A : Type) : Type :=
| Ok (a : A)
| Raise (e : exn).

Arguments Ok {A} a.
Arguments Raise {A} e.

Definition bind {A B : Type} (m : result A) (f : A -> result B) : result B :=
  match m with
  | Ok a => f a
  | Raise e => Raise e
  end.

Notation "x <- m ;; k" := (bind m (fun x => k))
  (at level 61, m at next level, right associativity).

(** ** Floating-point values *)

Module NP.

Inductive float : Type :=
| Fin (x : R)
| PInf
| NInf
| NaN.

Definition Rltb (x y : R) : bool := if Rlt_dec x y then true else false.
Definition Reqb (x y : R) : bool := if Req_dec_T x y then true else false.

Definition is_finite (a : float) : bool :=
  match a with Fin _ => true | _ => false end.

Definition is_nan (a : float) : bool :=
  match a with NaN => true | _ => false end.

Definition neg (a : float) : float :=
  match a with
  | Fin x => Fin (- x)
  | PInf => NInf
  | NInf => PInf
  | NaN => NaN
  end.

Definition add (a b : float) : float :=
  match a, b with
  | NaN, _ | _, NaN => NaN
  | Fin x, Fin y => Fin (x + y)
  | PInf, NInf | NInf, PInf => NaN
  | PInf, _ | _, PInf => PInf
  | NInf, _ | _, NInf => NInf
  end.

Definition sub (a b : float) : float := add a (neg b).

(** numpy division: a zero divisor gives an infinity or [nan] (with a
    warning), never an exception.  A zero is taken as positive. *)
Definition div (a b : float) : float :=
  match a, b with
  | NaN, _ | _, NaN => NaN
  | Fin x, Fin y =>
      if Reqb y 0 then
        if Reqb x 0 then NaN else if Rltb 0 x then PInf else NInf
      else Fin (x / y)
  | Fin _, _ => Fin 0
  | PInf, Fin y => if Rltb y 0 then NInf else PInf
  | NInf, Fin y => if Rltb y 0 then PInf else NInf
  | _, _ => NaN
  end.

(** [np.exp] *)
Definition exp (a : float) : float :=
  match a with
  | Fin x => Fin (Rtrigo_def.exp x)
  | PInf => PInf
  | NInf => Fin 0
  | NaN => NaN
  end.

(** [np.log] *)
Definition log (a : float) : float :=
  match a with
  | Fin x => if Rltb 0 x then Fin (ln x) else if Reqb x 0 then NInf else NaN
  | PInf => PInf
  | NInf => NaN
  | NaN => NaN
  end.

(** [np.abs] *)
Definition abs (a : float) : float :=
  match a with
  | Fin x => Fin (Rabs x)
  | PInf | NInf => PInf
  | NaN => NaN
  end.

(** [a < b]; every comparison with [nan] is false. *)
Definition lt (a b : float) : bool :=
  match a, b with
  | NaN, _ | _, NaN => false
  | Fin x, Fin y => Rltb x y
  | NInf, NInf => false
  | NInf, _ => true
  | _, PInf => match a with PInf => false | _ => true end
  | _, _ => false
  end.

(** [a > b] *)
Definition gt (a b : float) : bool := lt b a.

(** [a <= b] *)
Definition le (a b : float) : bool :=
  match a, b with
  | NaN, _ | _, NaN => false
  | Fin x, Fin y => negb (Rltb y x)
  | NInf, _ => true
  | _, PInf => true
  | _, _ => false
  end.

(** [np.sum] of a one-dimensional array *)
Definition sum (l : list float) : float := fold_right add (Fin 0) l.

(** [np.mean]: the sum divided by the number of entries ([nan] for an empty
    array). *)
Definition mean (l : list float) : float :=
  div (sum l) (Fin (INR (length l))).

(** The larger of two values as [np.max] and [np.amax] combine them: [nan]
    propagates. *)
Definition max2 (a b : float) : float :=
  match a, b with
  | NaN, _ | _, NaN => NaN
  | _, _ => if lt a b then b else a
  end.

(** [np.max] of a one-dimensional array; an empty array raises. *)
Definition max (l : list float) : result float :=
  match l with
  | [] => Raise ValueError
  | x :: l' => Ok (fold_left max2 l' x)
  end.

End NP.

Abbreviation float := NP.float.
Abbreviation Fin := NP.Fin.
Abbreviation PInf := NP.PInf.
Abbreviation NInf := NP.NInf.
Abbreviation NaN := NP.NaN.

(** Division of Python floats: a zero divisor raises. *)
Definition pydiv (a b : float) : result float :=
  match b with
  | Fin y => if NP.Reqb y 0 then Raise ZeroDivisionError else Ok (NP.div a b)
  | _ => Ok (NP.div a b)
  end.

(** ** Softmax of the classifier output (lines 237-247)

    [scipy.special.softmax] along axis 1: each row is shifted by its
    maximum, exponentiated and divided by the sum of the row.  The
    components of a finite row are exact, strictly between 0 and 1; their
    binary64 roundings can be 0, 1/2 or 1. *)

Definition softmax_row (row : float * float) : float * float :=
  let x_max := NP.max2 (fst row) (snd row) in
  let exp_x_shifted :=
    (NP.exp (NP.sub (fst row) x_max), NP.exp (NP.sub (snd row) x_max)) in
  let s := NP.sum [fst exp_x_shifted; snd exp_x_shifted] in
  (NP.div (fst exp_x_shifted) s, NP.div (snd exp_x_shifted) s).

Definition softmax (logit_predictions : list (float * float))
  : list (float * float) :=
  map softmax_row logit_predictions.

(** [softmax_predictions[:, 0]] *)
Definition doublet_score (logit_predictions : list (float * float))
  : list float :=
  map fst (softmax logit_predictions).

(** [logit_predictions[:, 1]] *)
Definition logit_doublet_score (logit_predictions : list (float * float))
  : list float :=
  map snd logit_predictions.

(** ** The calibration loop (lines 254-270) *)

(** The two real functions the loop is built from: the log-odds
    [ln (p / (1 - p))] and its inverse. *)
Definition logit (p : R) : R := ln (p / (1 - p)).

Definition sigmoid (x : R) : R := 1 / (1 + Rtrigo_def.exp (- x)).

Record loop_state : Type := {
  diff : float;
  counter_update : nat;
  solo_scores : list float
}.

(** [d_s = args.doublet_ratio / (args.doublet_ratio + 1)], on Python
    floats: the exact quotient, which is never 1.  The binary64 quotient,
    which is 1.0 for large ratios, is [Binary64.target_prevalence]; the
    functions of the loop below take [d_s] itself. *)
Definition target_prevalence (doublet_ratio : float) : result float :=
  pydiv doublet_ratio (NP.add doublet_ratio (Fin 1)).

(** [np.log(d_s/(1-d_s))]: the quotient is a quotient of Python floats. *)
Definition log_odds_target (d_s : float) : result float :=
  q <- pydiv d_s (NP.sub (Fin 1) d_s) ;;
  Ok (NP.log q).

(** [np.log(d_o/(1-d_o))]: [d_o] is a numpy scalar. *)
Definition log_odds (d_o : float) : float :=
  NP.log (NP.div d_o (NP.sub (Fin 1) d_o)).

(** [1 / (1+np.exp(-(l + c)))]: for finite arguments the exact value, which
    lies strictly between 0 and 1 and is strictly increasing in [l]; its
    binary64 rounding lies in [0, 1] and is non-decreasing. *)
Definition update_score (c l : float) : float :=
  NP.div (Fin 1) (NP.add (Fin 1) (NP.exp (NP.neg (NP.add l c)))).

(** [(diff > .01) | (counter_update < 5)] *)
Definition loop_cond (st : loop_state) : bool :=
  NP.gt (diff st) (Fin (1 / 100)) || (counter_update st <? 5)%nat.

(** [c = np.log(d_o/(1-d_o)) - np.log(d_s/(1-d_s))] *)
Definition bias (d_s d_o : float) : result float :=
  t <- log_odds_target d_s ;;
  Ok (NP.sub (log_odds d_o) t).

Definition loop_body (d_s : float) (logit_scores : list float)
  (st : loop_state) : result loop_state :=
  let d_o := NP.mean (solo_scores st) in
  c <- bias d_s d_o ;;
  let solo_scores' := map (update_score c) logit_scores in
  Ok {| diff := NP.abs (NP.sub d_o (NP.mean solo_scores'));
        counter_update := S (counter_update st);
        solo_scores := solo_scores' |}.

(** The [while] statement.  The loop has no bound of its own: [None] says
    that [fuel] iterations were not enough. *)
Fixpoint while_loop (fuel : nat) (d_s : float) (logit_scores : list float)
  (st : loop_state) : option (result loop_state) :=
  if loop_cond st then
    match fuel with
    | O => None
    | S fuel' =>
        match loop_body d_s logit_scores st with
        | Ok st' => while_loop fuel' d_s logit_scores st'
        | Raise e => Some (Raise e)
        end
    end
  else Some (Ok st).

(** The state after [n] executions of the loop body. *)
Fixpoint iterate (n : nat) (d_s : float) (logit_scores : list float)
  (st : loop_state) : result loop_state :=
  match n with
  | O => Ok st
  | S n' =>
      st' <- iterate n' d_s logit_scores st ;;
      loop_body d_s logit_scores st'
  end.

Definition initial_state (initial_score : list float) : loop_state :=
  {| diff := PInf; counter_update := 0; solo_scores := initial_score |}.

(** Lines 254-270 as a function of the arrays of the full population, the
    number of real cells and the doublet ratio.  The target prevalence is
    the exact quotient: for a positive ratio from 2^53 on, where the
    binary64 quotient is 1.0 and the program raises at line 263, this is
    the loop of the exact target, not the run of the program. *)
Definition calibrate (fuel : nat) (doublet_ratio : float)
  (doublet_score logit_doublet_score : list float) (num_cells : nat)
  : option (result loop_state) :=
  let st0 := initial_state (firstn num_cells doublet_score) in
  let logit_scores := firstn num_cells logit_doublet_score in
  match target_prevalence doublet_ratio with
  | Ok d_s => while_loop fuel d_s logit_scores st0
  | Raise e => Some (Raise e)
  end.

(** ** Threshold selection (lines 277-288) *)

(** The order in which numpy sorts and partitions: [nan] comes last. *)
Definition sort_le (a b : float) : bool :=
  match b with
  | NaN => true
  | _ => NP.le a b
  end.

(** What numpy promises of [idx = np.argpartition(a, kth)] for an in-range
    [kth]: [idx] is a permutation of the indices, no entry before position
    [kth] is above the entry at [kth], and none from there on is below. *)
Definition is_argpartition (a : list float) (kth : nat) (idx : list nat)
  : Prop :=
  Permutation idx (seq 0 (length a)) /\
  Forall (fun i => sort_le (nth i a NaN) (nth (nth kth idx O) a NaN) = true)
         (firstn kth idx) /\
  Forall (fun i => sort_le (nth (nth kth idx O) a NaN) (nth i a NaN) = true)
         (skipn kth idx).

(** Index [i] comes no later than index [j] in the order of their entries. *)
Definition index_le (a : list float) (i j : nat) : Prop :=
  sort_le (nth i a NaN) (nth j a NaN) = true.

Fixpoint insert_index (a : list float) (i : nat) (idx : list nat)
  : list nat :=
  match idx with
  | [] => [i]
  | j :: idx' =>
      if sort_le (nth i a NaN) (nth j a NaN) then i :: idx
      else j :: insert_index a i idx'
  end.

(** The indices of [a] in ascending order of their entries. *)
Definition argsort (a : list float) : list nat :=
  fold_right (insert_index a) [] (seq 0 (length a)).

(** [np.argpartition(a, kth)]: a [kth] outside [-n, n) raises, a negative
    one counts from the end.  Of the partitions numpy may return, the model
    returns the fully sorted one. *)
Definition argpartition (a : list float) (kth : Z) : result (list nat) :=
  let n := Z.of_nat (length a) in
  if ((kth <? - n) || (n <=? kth))%Z then Raise ValueError
  else Ok (argsort a).

(** [a[idx]] for an index array *)
Definition take (a : list float) (idx : list nat) : list float :=
  map (fun i => nth i a NaN) idx.

(** The least magnitude that rounds to no finite binary64 value:
    [2^1024 - 2^970]. *)
Definition float_overflow_bound : Z := (2 ^ 1024 - 2 ^ 970)%Z.

(** [e / n] on Python integers: a zero divisor raises, and so does a
    quotient too large for a float. *)
Definition int_truediv (e n : Z) : result float :=
  if (n =? 0)%Z then Raise ZeroDivisionError
  else if (float_overflow_bound * Z.abs n <=? Z.abs e)%Z
       then Raise OverflowError
  else Ok (Fin (IZR e / IZR n)).

(** The threshold and the calls; the first component tells whether the
    warning about a majority of doublets was printed. *)
Definition select_threshold (solo_scores : list float)
  (expected_number_of_doublets : option Z)
  : result (bool * float * list bool) :=
  match expected_number_of_doublets with
  | Some e =>
      let k := (Z.of_nat (length solo_scores) - e)%Z in
      frac <- int_truediv e (Z.of_nat (length solo_scores)) ;;
      let warned := NP.gt frac (Fin (1 / 2)) in
      if (0 <? k)%Z then
        idx <- argpartition solo_scores k ;;
        threshold <- NP.max (take solo_scores (firstn (Z.to_nat k) idx)) ;;
        Ok (warned, threshold,
            map (fun s => NP.gt s threshold) solo_scores)
      else Raise AssertionError
  | None =>
      Ok (false, Fin (1 / 2),
          map (fun s => NP.gt s (Fin (1 / 2))) solo_scores)
  end.

(** ** The arrays written by [main] (lines 235-293)

    The result holds the arrays as they stand once line 293 has been
    executed; an exception raised on the way leaves no call array. *)

Record outputs : Type := {
  no_updates_softmax_scores : list float;
  no_updates_softmax_scores_sim : list float;
  logit_scores : list float;
  logit_scores_sim : list float;
  softmax_scores : list float;
  is_doublet : list bool;
  is_doublet_sim : list bool
}.

Definition main (fuel : nat) (logit_predictions : list (float * float))
  (num_cells : nat) (doublet_ratio : float)
  (expected_number_of_doublets : option Z) : option (result outputs) :=
  let doublet_score := doublet_score logit_predictions in
  let logit_doublet_score := logit_doublet_score logit_predictions in
  match calibrate fuel doublet_ratio doublet_score logit_doublet_score
          num_cells with
  | None => None
  | Some (Raise e) => Some (Raise e)
  | Some (Ok st) =>
      Some (
        r <- select_threshold (solo_scores st) expected_number_of_doublets ;;
        let is_solo_doublet := snd r in
        Ok {| no_updates_softmax_scores := firstn num_cells doublet_score;
              no_updates_softmax_scores_sim := skipn num_cells doublet_score;
              logit_scores := firstn num_cells logit_doublet_score;
              logit_scores_sim := skipn num_cells logit_doublet_score;
              softmax_scores := solo_scores st;
              is_doublet := firstn num_cells is_solo_doublet;
              is_doublet_sim := skipn num_cells is_solo_doublet |})
  end.

(** ** Predicates used in the statements *)

Definition finite (a : float) : Prop := NP.is_finite a = true.

(** A finite value of the closed interval [0, 1]. *)
Definition in_unit (a : float) : Prop :=
  exists x, a = Fin x /\ 0 <= x <= 1.

(** A finite value strictly between 0 and 1. *)
Definition in_open_unit (a : float) : Prop :=
  exists x, a = Fin x /\ 0 < x < 1.

Definition not_nan (a : float) : Prop := NP.is_nan a = false.

(** The number of [true] entries of a call array. *)
Definition count_true (calls : list bool) : nat :=
  length (filter (fun b => b) calls).

(** The number of scores strictly below, and at or below, a value. *)
Definition count_lt (t : float) (scores : list float) : nat :=
  length (filter (fun s => NP.lt s t) scores).

Definition count_le (t : float) (scores : list float) : nat :=
  length (filter (fun s => NP.le s t) scores).

(** ** The sequence of observed means *)

(** The real number a finite value stands for (0 for the special values). *)
Definition value (a : float) : R :=
  match a with
  | Fin x => x
  | _ => 0
  end.

(** The state after [n] iterations of a run in which no iteration raises. *)
Definition state_after (n : nat) (d_s : float) (ls : list float)
  (st : loop_state) : loop_state :=
  match iterate n d_s ls st with
  | Ok st' => st'
  | Raise _ => st
  end.

(** The mean of the working scores after [n] iterations. *)
Definition observed_mean (n : nat) (d_s : float) (ls : list float)
  (st : loop_state) : R :=
  value (NP.mean (solo_scores (state_after n d_s ls st))).

(** ** The labels predicted from the raw logits (line 205) *)

(** [np.argmin] along a row of two logits: the position of the first
    smallest entry, a [nan] counting as the smallest. *)
Definition argmin_row (row : float * float) : nat :=
  match fst row, snd row with
  | NaN, _ => 0%nat
  | _, NaN => 1%nat
  | a, b => if NP.lt b a then 1%nat else 0%nat
  end.

(** [is_doublet_pred = np.argmin(logit_predictions, axis=1)] *)
Definition is_doublet_pred (logit_predictions : list (float * float))
  : list nat :=
  map argmin_row logit_predictions.

(** ** The batch size (lines 147-150)

    The loop protecting against a batch of a single example, for a batch
    size that is an integer.  [1.25*batch_size] is then the real number
    [5*batch_size/4], which [np.round] rounds to the nearest integer, a tie
    going to the even one, and [int] converts exactly.  The float product
    is this number as long as [5*batch_size] has at most 53 bits; a product
    that is rounded, or that overflows to [inf] so that [int] raises, is
    outside the definition. *)

(** The integer nearest to [m/4], ties to even. *)
Definition round_quarters (m : Z) : Z :=
  let q := (m / 4)%Z in
  let r := (m mod 4)%Z in
  if (r <? 2)%Z then q
  else if (2 <? r)%Z then (q + 1)%Z
  else if Z.even q then q else (q + 1)%Z.

(** [int(np.round(1.25*batch_size))] *)
Definition increase_batch_size (batch_size : Z) : Z :=
  round_quarters (5 * batch_size).

(** [while num_cells % batch_size == 1: batch_size = ...]; the remainder by
    zero raises. *)
Fixpoint batch_size_loop (fuel : nat) (num_cells batch_size : Z)
  : option (result Z) :=
  if (batch_size =? 0)%Z then Some (Raise ZeroDivisionError)
  else if (num_cells mod batch_size =? 1)%Z then
    match fuel with
    | O => None
    | S fuel' =>
        batch_size_loop fuel' num_cells (increase_batch_size batch_size)
    end
  else Some (Ok batch_size).

(** ** The parameters read from the JSON file (lines 129-139) *)

Module Params.
Import Stdlib.Strings.String.
Local Open Scope string_scope.
#[local] Set Warnings "-register-all".

(** A value as [json.load] returns it. *)
Inductive json : Type :=
| JNull
| JBool (b : bool)
| JInt (z : Z)
| JFloat (x : float)
| JString (s : string)
| JList (l : list json)
| JDict (d : list (string * json)).

(** A Python dictionary with string keys, in insertion order. *)
Definition dict : Type := list (string * json).

(** [d.get(k)], with [None] for a missing key; [k in d] is [Some]. *)
Fixpoint dict_get (d : dict) (k : string) : option json :=
  match d with
  | [] => None
  | (k', v) :: d' => if k' =? k then Some v else dict_get d' k
  end.

(** [d[k] = v] *)
Fixpoint dict_set (d : dict) (k : string) (v : json) : dict :=
  match d with
  | [] => [(k, v)]
  | (k', v') :: d' =>
      if k' =? k then (k, v) :: d' else (k', v') :: dict_set d' k v
  end.

(** The truth value Python gives a value in a condition. *)
Definition truthy (v : json) : bool :=
  match v with
  | JNull => false
  | JBool b => b
  | JInt z => negb (z =? 0)%Z
  | JFloat x => match x with Fin r => negb (NP.Reqb r 0) | _ => true end
  | JString s => negb (s =? "")
  | JList l => match l with [] => false | _ => true end
  | JDict d => match d with [] => false | _ => true end
  end.

Definition vae_param_names : list string :=
  ["n_hidden"; "n_latent"; "n_layers"; "dropout_rate"; "ignore_batch"].

(** [if par in params: vae_params[par] = params[par]] *)
Definition copy_param (params vae_params : dict) (par : string) : dict :=
  match dict_get params par with
  | Some v => dict_set vae_params par v
  | None => vae_params
  end.

(** [params.get('ignore_batch', False)] *)
Definition ignore_batch (params : dict) : json :=
  match dict_get params "ignore_batch" with
  | Some v => v
  | None => JBool false
  end.

(** Lines 133-139; [n_batches] is [scvi_data.n_batches]. *)
Definition vae_params (params : dict) (n_batches : Z) : dict :=
  let vae_params := fold_left (copy_param params) vae_param_names [] in
  dict_set vae_params "n_batch"
           (JInt (if truthy (ignore_batch params) then 0%Z else n_batches)).

End Params.

(** ** The format of the data file (lines 113-121)

    A path is a list of characters.  [os.path.splitext] is the one of
    [posixpath]: the extension starts at the last dot of the path, provided
    that dot comes after the last slash and some character other than a dot
    stands between the two. *)

Module Paths.
Import Stdlib.Strings.Ascii Stdlib.Strings.String.

Definition str : Type := list ascii.

(** [p.rfind(c)]: the index of the last occurrence of [c], or -1. *)
Fixpoint rfind (c : ascii) (p : str) : Z :=
  match p with
  | [] => (-1)%Z
  | a :: p' =>
      let r := rfind c p' in
      if (0 <=? r)%Z then (r + 1)%Z
      else if Ascii.eqb a c then 0%Z else (-1)%Z
  end.

(** The loop that skips the leading dots of the file name: whether one of
    the [steps] characters from [filenameIndex] on is not a dot. *)
Fixpoint has_stem (p : str) (filenameIndex steps : nat) : bool :=
  match steps with
  | O => false
  | S steps' =>
      match nth_error p filenameIndex with
      | Some a =>
          if Ascii.eqb a "."%char then has_stem p (S filenameIndex) steps'
          else true
      | None => true
      end
  end.

(** [os.path.splitext(p)] *)
Definition splitext (p : str) : str * str :=
  let sepIndex := rfind "/"%char p in
  let dotIndex := rfind "."%char p in
  if (sepIndex <? dotIndex)%Z
     && has_stem p (Z.to_nat (sepIndex + 1))
                 (Z.to_nat (dotIndex - (sepIndex + 1)))
  then (firstn (Z.to_nat dotIndex) p, skipn (Z.to_nat dotIndex) p)
  else (p, []).

(** [a == b] on strings *)
Definition str_eqb (a b : str) : bool :=
  if list_eq_dec ascii_dec a b then true else false.

Definition loom_ext : str := list_ascii_of_string ".loom".
Definition h5ad_ext : str := list_ascii_of_string ".h5ad".

(** What lines 113-121 do with a path. *)
Inductive data_reader : Type :=
| ReadLoom
| ReadH5ad
| RaiseTypeError.

Definition read_data (data_path : str) : data_reader :=
  let data_ext := snd (splitext data_path) in
  if str_eqb data_ext loom_ext then ReadLoom
  else if str_eqb data_ext h5ad_ext then ReadH5ad
  else RaiseTypeError.

End Paths.


(** * The target prevalence in binary64 (line 258)

    [d_s = args.doublet_ratio / (args.doublet_ratio + 1)] on Python floats,
    computed with the binary64 operations.  The quotient of the exact
    embedding is below 1 for every positive ratio; the binary64 quotient is
    exactly 1 once [doublet_ratio + 1] rounds to [doublet_ratio], and then
    [d_s / (1 - d_s)] of line 263 divides by zero. *)

Module Binary64.

Import PrimFloat SpecFloat FloatOps.

(** [None] stands for the [ZeroDivisionError] of a zero divisor. *)
Definition target_prevalence (doublet_ratio : PrimFloat.float)
  : option PrimFloat.float :=
  let d := (doublet_ratio + 1)%float in
  if (d =? 0)%float then None else Some (doublet_ratio / d)%float.

(** Whether the divisor [1 - d_s] of line 263 is zero. *)
Definition zero_divisor (d_s : PrimFloat.float) : bool :=
  (1 - d_s =? 0)%float.


Definition ratio_2p53 : PrimFloat.float := 0x1p53%float.
Definition ratio_below_2p53 : PrimFloat.float := 0x1.fffffffffffffp52%float.

End Binary64.
(** * Properties *)

(** ** Arithmetic on finite values *)

Lemma Rltb_true (x y : R) : NP.Rltb x y = true <-> x < y.
Proof. unfold NP.Rltb. destruct (Rlt_dec x y); split; intros; try easy. Qed.

Lemma Rltb_false (x y : R) : NP.Rltb x y = false <-> y <= x.
Proof.
  unfold NP.Rltb. destruct (Rlt_dec x y); split; intros; try easy; lra.
Qed.

Lemma Reqb_true (x y : R) : NP.Reqb x y = true <-> x = y.
Proof. unfold NP.Reqb. destruct (Req_dec_T x y); split; intros; easy. Qed.

Lemma Reqb_false (x y : R) : NP.Reqb x y = false <-> x <> y.
Proof. unfold NP.Reqb. destruct (Req_dec_T x y); split; intros; easy. Qed.

Lemma Rltb_lt (x y : R) : x < y -> NP.Rltb x y = true.
Proof. apply Rltb_true. Qed.

Lemma Rltb_ge (x y : R) : y <= x -> NP.Rltb x y = false.
Proof. apply Rltb_false. Qed.

Lemma Reqb_eq (x y : R) : x = y -> NP.Reqb x y = true.
Proof. apply Reqb_true. Qed.

Lemma Reqb_neq (x y : R) : x <> y -> NP.Reqb x y = false.
Proof. apply Reqb_false. Qed.

Lemma div_fin (x y : R) : y <> 0 -> NP.div (Fin x) (Fin y) = Fin (x / y).
Proof. intros H. simpl. now rewrite Reqb_neq. Qed.

Lemma log_fin (x : R) : 0 < x -> NP.log (Fin x) = Fin (ln x).
Proof. intros H. simpl. now rewrite Rltb_lt. Qed.

Lemma log_zero : NP.log (Fin 0) = NInf.
Proof. simpl. rewrite Rltb_ge by lra. now rewrite Reqb_eq. Qed.

Lemma log_neg (x : R) : x < 0 -> NP.log (Fin x) = NaN.
Proof.
  intros H. simpl. rewrite Rltb_ge by lra. rewrite Reqb_neq by lra. easy.
Qed.

Lemma pydiv_fin (x y : R) :
  y <> 0 -> pydiv (Fin x) (Fin y) = Ok (Fin (x / y)).
Proof. intros H. unfold pydiv. rewrite Reqb_neq by easy. now rewrite div_fin. Qed.

(** Comparisons of real constants. *)
Ltac decide_Rltb :=
  repeat match goal with
         | |- context [NP.Rltb ?x ?y] =>
             first [ rewrite (Rltb_lt x y) by lra
                   | rewrite (Rltb_ge x y) by lra ]
         end.

(** The comparisons, read as propositions. *)

Lemma gt_fin (x y : R) : NP.gt (Fin x) (Fin y) = true <-> y < x.
Proof. unfold NP.gt. simpl. apply Rltb_true. Qed.

Lemma lt_fin (x y : R) : NP.lt (Fin x) (Fin y) = true <-> x < y.
Proof. simpl. apply Rltb_true. Qed.

(** ** The log-odds of a probability and the sigmoid *)

Lemma sigmoid_range (x : R) : 0 < sigmoid x < 1.
Proof.
  unfold sigmoid. pose proof (exp_pos (- x)) as He.
  split.
  - apply Rdiv_lt_0_compat; lra.
  - apply (Rmult_lt_reg_r (1 + Rtrigo_def.exp (- x))); [lra|].
    unfold Rdiv. rewrite Rmult_assoc, Rinv_l by lra. lra.
Qed.

Lemma sigmoid_increasing (x y : R) : x < y -> sigmoid x < sigmoid y.
Proof.
  intros H. unfold sigmoid.
  pose proof (exp_pos (- x)). pose proof (exp_pos (- y)).
  assert (Rtrigo_def.exp (- y) < Rtrigo_def.exp (- x))
    by (apply exp_increasing; lra).
  unfold Rdiv. rewrite !Rmult_1_l.
  apply Rinv_lt_contravar; [|lra].
  apply Rmult_lt_0_compat; lra.
Qed.

Lemma sigmoid_logit (p : R) : 0 < p < 1 -> sigmoid (logit p) = p.
Proof.
  intros H. unfold sigmoid, logit.
  assert (0 < p / (1 - p)) by (apply Rdiv_lt_0_compat; lra).
  rewrite exp_Ropp, exp_ln by easy. field. lra.
Qed.

Lemma log_odds_fin (d_o : R) :
  0 < d_o < 1 -> log_odds (Fin d_o) = Fin (logit d_o).
Proof.
  intros H. unfold log_odds, logit. simpl NP.sub.
  replace (1 + - d_o) with (1 - d_o) by lra.
  rewrite div_fin by lra. apply log_fin. apply Rdiv_lt_0_compat; lra.
Qed.

Lemma log_odds_zero : log_odds (Fin 0) = NInf.
Proof.
  unfold log_odds. simpl NP.sub. rewrite div_fin by lra.
  replace (0 / (1 + - 0)) with 0 by lra. apply log_zero.
Qed.

Lemma log_odds_one : log_odds (Fin 1) = PInf.
Proof.
  unfold log_odds. simpl NP.sub. simpl NP.div.
  rewrite Reqb_eq by lra. rewrite Reqb_neq by lra. rewrite Rltb_lt by lra.
  reflexivity.
Qed.

Lemma log_odds_outside (d_o : R) :
  d_o < 0 \/ 1 < d_o -> log_odds (Fin d_o) = NaN.
Proof.
  intros H. unfold log_odds. simpl NP.sub. rewrite div_fin by lra.
  apply log_neg.
  assert (E : d_o / (1 + - d_o) = - (d_o * / (d_o - 1))) by (field; lra).
  rewrite E.
  destruct H as [H|H].
  - assert (0 < d_o * / (d_o - 1)); [|lra].
    replace (d_o * / (d_o - 1)) with ((- d_o) * / (1 - d_o)) by (field; lra).
    apply Rmult_lt_0_compat; [lra|]. apply Rinv_0_lt_compat. lra.
  - assert (0 < d_o * / (d_o - 1)); [|lra].
    apply Rmult_lt_0_compat; [lra|]. apply Rinv_0_lt_compat. lra.
Qed.

Lemma log_odds_target_fin (d_s : R) :
  0 < d_s < 1 -> log_odds_target (Fin d_s) = Ok (Fin (logit d_s)).
Proof.
  intros H. unfold log_odds_target, logit. simpl NP.sub.
  replace (1 + - d_s) with (1 - d_s) by lra.
  rewrite pydiv_fin by lra. cbn [bind]. rewrite log_fin; [easy|].
  apply Rdiv_lt_0_compat; lra.
Qed.

Lemma update_score_fin (c l : R) :
  update_score (Fin c) (Fin l) = Fin (sigmoid (l + c)).
Proof.
  unfold update_score, sigmoid. simpl NP.add. simpl NP.neg. simpl NP.exp.
  simpl NP.add. apply div_fin. pose proof (exp_pos (- (l + c))). lra.
Qed.

Lemma update_score_pinf (l : R) : update_score PInf (Fin l) = Fin 1.
Proof.
  unfold update_score. simpl NP.add. simpl NP.neg. simpl NP.exp.
  simpl NP.add. rewrite div_fin by lra. f_equal. lra.
Qed.

Lemma update_score_ninf (l : R) : update_score NInf (Fin l) = Fin 0.
Proof. reflexivity. Qed.

(** ** The softmax of a pair of finite logits *)

Lemma max2_fin (a b : R) : NP.max2 (Fin a) (Fin b) = Fin (Rmax a b).
Proof.
  cbn. unfold NP.Rltb, Rmax.
  destruct (Rlt_dec a b), (Rle_dec a b); try easy; try lra.
  f_equal. lra.
Qed.

Lemma softmax_ratio (a b m : R) :
  Rtrigo_def.exp (a + - m) /
    (Rtrigo_def.exp (a + - m) + (Rtrigo_def.exp (b + - m) + 0))
  = sigmoid (a - b).
Proof.
  unfold sigmoid.
  assert (E : Rtrigo_def.exp (b + - m)
              = Rtrigo_def.exp (a + - m) * Rtrigo_def.exp (- (a - b))).
  { rewrite <- exp_plus. f_equal. lra. }
  rewrite E. pose proof (exp_pos (a + - m)). pose proof (exp_pos (- (a - b))).
  field. repeat split; nra.
Qed.

Lemma softmax_row_fin (a b : R) :
  softmax_row (Fin a, Fin b) = (Fin (sigmoid (a - b)), Fin (sigmoid (b - a))).
Proof.
  unfold softmax_row. cbn [fst snd]. rewrite max2_fin.
  cbn [NP.sub NP.neg NP.add NP.exp NP.sum fold_right].
  set (m := Rmax a b).
  pose proof (exp_pos (a + - m)). pose proof (exp_pos (b + - m)).
  rewrite !div_fin by lra. rewrite softmax_ratio.
  replace (Rtrigo_def.exp (b + - m) /
             (Rtrigo_def.exp (a + - m) + (Rtrigo_def.exp (b + - m) + 0)))
    with (sigmoid (b - a)); [reflexivity|].
  rewrite <- (softmax_ratio b a m). f_equal. lra.
Qed.

Lemma sigmoid_0 : sigmoid 0 = 1 / 2.
Proof. unfold sigmoid. rewrite Ropp_0, exp_0. lra. Qed.

(** The softmax of finite logits lies strictly between 0 and 1: the arrays
    [main] hands to the calibration loop meet the hypotheses above. *)
Lemma doublet_score_in_open_unit (logit_predictions : list (float * float)) :
  Forall (fun row => finite (fst row) /\ finite (snd row)) logit_predictions ->
  Forall in_open_unit (doublet_score logit_predictions) /\
  Forall finite (logit_doublet_score logit_predictions) /\
  length (doublet_score logit_predictions)
  = length (logit_doublet_score logit_predictions).
Proof.
  intros H. unfold doublet_score, logit_doublet_score, softmax.
  repeat split.
  - rewrite map_map. apply Forall_map. eapply Forall_impl; [|exact H].
    intros [[a| | |] [b| | |]] [Ha Hb]; try discriminate.
    rewrite softmax_row_fin. cbn [fst]. exists (sigmoid (a - b)).
    split; [easy|apply sigmoid_range].
  - apply Forall_map. eapply Forall_impl; [|exact H]. now intros row [_ Hb].
  - now rewrite !length_map.
Qed.

Lemma bias_fin (d_s : R) (d_o : float) :
  0 < d_s < 1 ->
  bias (Fin d_s) d_o = Ok (NP.sub (log_odds d_o) (Fin (logit d_s))).
Proof. intros H. unfold bias. now rewrite log_odds_target_fin. Qed.

Lemma bias_fin_open (d_s d_o : R) :
  0 < d_s < 1 -> 0 < d_o < 1 ->
  bias (Fin d_s) (Fin d_o) = Ok (Fin (logit d_o - logit d_s)).
Proof.
  intros Hs Ho. rewrite bias_fin by easy. now rewrite log_odds_fin.
Qed.

(** ** Means of concrete and of bounded arrays *)

Lemma sum_fin_bounds (l : list float) (lo hi : R) :
  Forall (fun a => exists x, a = Fin x /\ lo <= x <= hi) l ->
  exists s, NP.sum l = Fin s /\
            lo * INR (length l) <= s <= hi * INR (length l).
Proof.
  induction 1 as [|a l [x [-> Hx]] _ [s [Hs Hb]]].
  - exists 0. simpl. split; [easy|lra].
  - exists (x + s). unfold NP.sum in *. cbn [fold_right length].
    rewrite Hs. split; [easy|]. rewrite S_INR. nra.
Qed.

Lemma sum_fin_strict (l : list float) :
  l <> [] ->
  Forall in_open_unit l ->
  exists s, NP.sum l = Fin s /\ 0 < s < INR (length l).
Proof.
  intros Hne H. induction H as [|a l [x [-> Hx]] Hl IH]; [easy|].
  destruct l as [|b l].
  - exists (x + 0). simpl. split; [easy|lra].
  - destruct IH as [s [Hs Hb]]; [easy|].
    exists (x + s). unfold NP.sum in *. cbn [fold_right] in *.
    rewrite Hs. split; [easy|].
    change (length (Fin x :: b :: l)) with (S (length (b :: l))).
    rewrite S_INR. lra.
Qed.

Lemma INR_length_pos {A : Type} (l : list A) : l <> [] -> 0 < INR (length l).
Proof.
  destruct l; [easy|]. intros _. apply lt_0_INR. simpl. lia.
Qed.

Lemma mean_in_unit (l : list float) :
  l <> [] -> Forall in_unit l -> in_unit (NP.mean l).
Proof.
  intros Hne H.
  destruct (sum_fin_bounds l 0 1 H) as [s [Hs Hb]].
  pose proof (INR_length_pos l Hne) as Hn.
  exists (s / INR (length l)). unfold NP.mean. rewrite Hs.
  rewrite div_fin by lra. split; [easy|].
  split.
  - apply Rmult_le_pos; [lra|]. apply Rlt_le, Rinv_0_lt_compat, Hn.
  - apply (Rmult_le_reg_r (INR (length l))); [easy|].
    unfold Rdiv. rewrite Rmult_assoc, Rinv_l by lra. lra.
Qed.

Lemma mean_in_open_unit (l : list float) :
  l <> [] -> Forall in_open_unit l -> in_open_unit (NP.mean l).
Proof.
  intros Hne H.
  destruct (sum_fin_strict l Hne H) as [s [Hs Hb]].
  pose proof (INR_length_pos l Hne) as Hn.
  exists (s / INR (length l)). unfold NP.mean. rewrite Hs.
  rewrite div_fin by lra. split; [easy|].
  split.
  - apply Rdiv_lt_0_compat; lra.
  - apply (Rmult_lt_reg_r (INR (length l))); [easy|].
    unfold Rdiv. rewrite Rmult_assoc, Rinv_l by lra. lra.
Qed.

Lemma mean_const (x : R) (n : nat) :
  NP.mean (repeat (Fin x) (S n)) = Fin x.
Proof.
  assert (Hs : forall m, NP.sum (repeat (Fin x) m) = Fin (x * INR m)).
  { induction m as [|m IH].
    - simpl. f_equal. lra.
    - unfold NP.sum in *. cbn [repeat fold_right]. rewrite IH.
      rewrite S_INR. simpl. f_equal. lra. }
  unfold NP.mean. rewrite Hs, repeat_length.
  assert (0 < INR (S n)) by (apply lt_0_INR; lia).
  rewrite div_fin by lra. f_equal. field. lra.
Qed.

(** ** C3: the log-odds of the observed mean are taken without a clamp *)

(** C3, refuted as stated.  With every working score equal to 0 the
    observed mean is exactly 0 and the bias of the iteration is [-inf];
    with every score equal to 1 the mean is exactly 1 and the bias is
    [+inf].  No clamp intervenes. *)
Lemma bias_infinite_at_degenerate_mean :
  bias (Fin (1 / 2)) (NP.mean (solo_scores (initial_state [Fin 0; Fin 0])))
    = Ok NInf /\ NP.is_finite NInf = false /\
  bias (Fin (1 / 2)) (NP.mean (solo_scores (initial_state [Fin 1; Fin 1])))
    = Ok PInf /\ NP.is_finite PInf = false.
Proof.
  cbn [initial_state solo_scores].
  change [Fin 0; Fin 0] with (repeat (Fin 0) 2).
  change [Fin 1; Fin 1] with (repeat (Fin 1) 2).
  rewrite !mean_const, !bias_fin by lra.
  rewrite log_odds_zero, log_odds_one. repeat split; reflexivity.
Qed.

(** C3, amended.  The bias of an iteration is computed from the observed
    mean as it is.  For a target prevalence strictly between 0 and 1 and a
    finite observed mean, the bias is finite exactly when the observed mean
    lies strictly between 0 and 1; at an observed mean of exactly 0 it is
    [-inf] and at exactly 1 it is [+inf]. *)
Theorem bias_finite_iff (d_s d_o : R) :
  0 < d_s < 1 ->
  exists c, bias (Fin d_s) (Fin d_o) = Ok c /\
    (NP.is_finite c = true <-> 0 < d_o < 1) /\
    (d_o = 0 -> c = NInf) /\
    (d_o = 1 -> c = PInf).
Proof.
  intros Hs. rewrite bias_fin by easy. eexists. split; [reflexivity|].
  destruct (Rlt_dec 0 d_o) as [H0|H0]; [destruct (Rlt_dec d_o 1) as [H1|H1]|].
  - rewrite log_odds_fin by easy. simpl. repeat split; intros; try lra.
  - destruct (Req_dec_T d_o 1) as [->|Hn].
    + rewrite log_odds_one. simpl. repeat split; intros; try easy; lra.
    + rewrite log_odds_outside by lra. simpl.
      repeat split; intros; try easy; lra.
  - destruct (Req_dec_T d_o 0) as [->|Hn].
    + rewrite log_odds_zero. simpl. repeat split; intros; try easy; lra.
    + rewrite log_odds_outside by lra. simpl.
      repeat split; intros; try easy; lra.
Qed.

Lemma bias_finite_iff_witness :
  0 < 1 / 2 < 1 /\
  exists c, bias (Fin (1 / 2)) (Fin (1 / 4)) = Ok c /\
    (NP.is_finite c = true <-> 0 < 1 / 4 < 1) /\
    (1 / 4 = 0 -> c = NInf) /\
    (1 / 4 = 1 -> c = PInf).
Proof.
  split; [lra|]. apply (bias_finite_iff (1 / 2) (1 / 4)). lra.
Defined.

(** ** The [while] statement and the iteration count *)

Lemma iterate_S_front (n : nat) (d_s : float) (ls : list float)
  (st : loop_state) :
  iterate (S n) d_s ls st =
  (st' <- loop_body d_s ls st ;; iterate n d_s ls st').
Proof.
  induction n as [|n IH].
  - cbn [iterate bind]. now destruct (loop_body d_s ls st).
  - change (iterate (S (S n)) d_s ls st)
      with (st' <- iterate (S n) d_s ls st ;; loop_body d_s ls st').
    rewrite IH. destruct (loop_body d_s ls st); reflexivity.
Qed.

Lemma while_loop_sound (fuel : nat) (d_s : float) (ls : list float) :
  forall st st',
  while_loop fuel d_s ls st = Some (Ok st') ->
  exists n, (n <= fuel)%nat /\
    iterate n d_s ls st = Ok st' /\
    loop_cond st' = false /\
    forall m st_m, (m < n)%nat -> iterate m d_s ls st = Ok st_m ->
                   loop_cond st_m = true.
Proof.
  induction fuel as [|fuel IH]; intros st st' H; cbn [while_loop] in H.
  - destruct (loop_cond st) eqn:Hc; [discriminate|].
    injection H as <-. exists O. repeat split; [lia|easy|]. intros; lia.
  - destruct (loop_cond st) eqn:Hc.
    + destruct (loop_body d_s ls st) as [st1|e] eqn:Hb; [|discriminate].
      destruct (IH _ _ H) as [n [Hn [Hi [Hf Hm]]]].
      exists (S n). repeat split; [lia| |easy|].
      * rewrite iterate_S_front, Hb. exact Hi.
      * intros [|m] st_m Hlt Him.
        -- cbn in Him. now injection Him as <-.
        -- rewrite iterate_S_front, Hb in Him. cbn [bind] in Him.
           apply (Hm m); [lia|easy].
    + injection H as <-. exists O. repeat split; [lia|easy|]. intros; lia.
Qed.

Lemma while_loop_complete (n : nat) (d_s : float) (ls : list float) :
  forall st st',
  iterate n d_s ls st = Ok st' ->
  loop_cond st' = false ->
  (forall m st_m, (m < n)%nat -> iterate m d_s ls st = Ok st_m ->
                  loop_cond st_m = true) ->
  forall fuel, (n <= fuel)%nat -> while_loop fuel d_s ls st = Some (Ok st').
Proof.
  induction n as [|n IH]; intros st st' Hi Hf Hm fuel Hle.
  - cbn in Hi. injection Hi as <-.
    destruct fuel; cbn [while_loop]; now rewrite Hf.
  - destruct fuel as [|fuel]; [lia|]. cbn [while_loop].
    rewrite (Hm O st) by (easy || lia).
    rewrite iterate_S_front in Hi.
    destruct (loop_body d_s ls st) as [st1|e] eqn:Hb; [|discriminate].
    cbn [bind] in Hi. apply IH; [easy|easy| |lia].
    intros m st_m Hlt Him. apply (Hm (S m)); [lia|].
    rewrite iterate_S_front, Hb. exact Him.
Qed.

Lemma loop_body_Ok (d_s : float) (ls : list float) (st st' : loop_state) :
  loop_body d_s ls st = Ok st' ->
  exists c, bias d_s (NP.mean (solo_scores st)) = Ok c /\
    solo_scores st' = map (update_score c) ls /\
    counter_update st' = S (counter_update st) /\
    diff st' =
      NP.abs (NP.sub (NP.mean (solo_scores st)) (NP.mean (solo_scores st'))).
Proof.
  unfold loop_body. intros H.
  destruct (bias d_s (NP.mean (solo_scores st))) as [c|e]; [|discriminate].
  cbn [bind] in H. injection H as <-. exists c. cbn. easy.
Qed.




Lemma iterate_counter (d_s : float) (ls : list float) (st : loop_state) :
  forall n st', iterate n d_s ls st = Ok st' ->
  counter_update st' = (n + counter_update st)%nat.
Proof.
  induction n as [|n IH]; intros st' H.
  - cbn in H. now injection H as <-.
  - cbn [iterate] in H.
    destruct (iterate n d_s ls st) as [st1|e]; [|discriminate].
    cbn [bind] in H. apply loop_body_Ok in H.
    destruct H as [c [_ [_ [Hc _]]]]. rewrite Hc, (IH st1) by easy. lia.
Qed.

Lemma loop_cond_early (st : loop_state) :
  (counter_update st < 5)%nat -> loop_cond st = true.
Proof.
  intros H. unfold loop_cond. apply Nat.ltb_lt in H. rewrite H.
  apply orb_true_r.
Qed.

Lemma loop_cond_late (st : loop_state) :
  (5 <= counter_update st)%nat ->
  loop_cond st = NP.gt (diff st) (Fin (1 / 100)).
Proof.
  intros H. unfold loop_cond. apply Nat.ltb_ge in H. rewrite H.
  apply orb_false_r.
Qed.

(** ** C2: at least five iterations, then the last delta decides *)





(** The binary64 target prevalence is below 1 for the largest float below
    2^53 and exactly 1 at 2^53. *)
Example target_prevalence_at_2p53 :
  Binary64.target_prevalence Binary64.ratio_2p53 = Some PrimFloat.one /\
  exists d_s,
    Binary64.target_prevalence Binary64.ratio_below_2p53 = Some d_s /\
    Binary64.zero_divisor d_s = false /\
    PrimFloat.ltb d_s PrimFloat.one = true.
Proof.
  split; [vm_compute; reflexivity|].
  eexists. split; [vm_compute; reflexivity|].
  split; vm_compute; reflexivity.
Qed.




(** ** Slices *)

Lemma Forall_firstn {A : Type} (P : A -> Prop) (n : nat) (l : list A) :
  Forall P l -> Forall P (firstn n l).
Proof.
  intros H. revert n. induction H as [|a l Ha _ IH]; intros [|n]; cbn;
    constructor; auto.
Qed.

(** ** C7: the working scores stay in the unit interval *)

Lemma target_prevalence_pos (doublet_ratio : R) :
  0 < doublet_ratio ->
  target_prevalence (Fin doublet_ratio)
    = Ok (Fin (doublet_ratio / (doublet_ratio + 1))) /\
  0 < doublet_ratio / (doublet_ratio + 1) < 1.
Proof.
  intros H. split.
  - unfold target_prevalence. cbn [NP.add]. apply pydiv_fin. lra.
  - split.
    + apply Rdiv_lt_0_compat; lra.
    + apply (Rmult_lt_reg_r (doublet_ratio + 1)); [lra|].
      unfold Rdiv. rewrite Rmult_assoc, Rinv_l by lra. lra.
Qed.

Lemma bias_of_unit_mean (d_s : R) (d_o : float) :
  0 < d_s < 1 -> in_unit d_o ->
  exists c, bias (Fin d_s) d_o = Ok c /\ not_nan c.
Proof.
  intros Hs [x [-> Hx]]. rewrite bias_fin by easy.
  eexists. split; [reflexivity|].
  destruct (Req_dec_T x 0) as [->|H0]; [now rewrite log_odds_zero|].
  destruct (Req_dec_T x 1) as [->|H1]; [now rewrite log_odds_one|].
  rewrite log_odds_fin by lra. reflexivity.
Qed.

Lemma update_score_in_unit (c l : float) :
  not_nan c -> finite l -> in_unit (update_score c l).
Proof.
  intros Hc Hl. destruct l as [l| | |]; try discriminate.
  destruct c as [c| | |]; try discriminate.
  - rewrite update_score_fin. exists (sigmoid (l + c)).
    pose proof (sigmoid_range (l + c)). split; [easy|lra].
  - rewrite update_score_pinf. exists 1. split; [easy|lra].
  - rewrite update_score_ninf. exists 0. split; [easy|lra].
Qed.

Lemma loop_body_in_unit (d_s : R) (ls : list float) (st : loop_state) :
  0 < d_s < 1 ->
  Forall finite ls ->
  Forall in_unit (solo_scores st) ->
  length (solo_scores st) = length ls ->
  exists st', loop_body (Fin d_s) ls st = Ok st' /\
    Forall in_unit (solo_scores st') /\
    length (solo_scores st') = length ls.
Proof.
  intros Hs Hfin Hu Hlen. unfold loop_body.
  destruct ls as [|l ls].
  - rewrite bias_fin by easy. cbn [bind map]. eexists.
    split; [reflexivity|]. cbn. split; [constructor|reflexivity].
  - assert (Hne : solo_scores st <> []).
    { intros E. rewrite E in Hlen. discriminate. }
    destruct (bias_of_unit_mean d_s _ Hs (mean_in_unit _ Hne Hu))
      as [c [Hc Hn]].
    rewrite Hc. cbn [bind]. eexists. split; [reflexivity|].
    cbn [solo_scores]. split; [|apply length_map].
    apply Forall_map. eapply Forall_impl; [|exact Hfin].
    intros a Ha. now apply update_score_in_unit.
Qed.

Lemma iterate_in_unit (d_s : R) (ls : list float) (st : loop_state) :
  0 < d_s < 1 ->
  Forall finite ls ->
  Forall in_unit (solo_scores st) ->
  length (solo_scores st) = length ls ->
  forall n, exists st', iterate n (Fin d_s) ls st = Ok st' /\
    Forall in_unit (solo_scores st') /\
    length (solo_scores st') = length ls.
Proof.
  intros Hs Hfin Hu Hlen. induction n as [|n [st1 [Hi [Hu1 Hl1]]]].
  - exists st. easy.
  - destruct (loop_body_in_unit d_s ls st1 Hs Hfin Hu1 Hl1)
      as [st2 [Hb H2]].
    exists st2. cbn [iterate]. rewrite Hi. cbn [bind]. easy.
Qed.

(** C7.  For a positive doublet ratio, finite logits and initial scores in
    [0, 1] (one per logit), every iteration of the calibration loop
    completes and leaves every working score in [0, 1]; so does the array
    the loop returns. *)
Theorem calibrated_scores_in_unit
  (doublet_ratio : R) (doublet_score logit_doublet_score : list float)
  (num_cells : nat) :
  0 < doublet_ratio ->
  length doublet_score = length logit_doublet_score ->
  Forall in_unit doublet_score ->
  Forall finite logit_doublet_score ->
  exists d_s, target_prevalence (Fin doublet_ratio) = Ok d_s /\
    (forall n, exists st,
        iterate n d_s (firstn num_cells logit_doublet_score)
                (initial_state (firstn num_cells doublet_score)) = Ok st /\
        Forall in_unit (solo_scores st)) /\
    (forall fuel st,
        calibrate fuel (Fin doublet_ratio) doublet_score logit_doublet_score
                  num_cells = Some (Ok st) ->
        Forall in_unit (solo_scores st)).
Proof.
  intros Hr Hlen Hu Hfin.
  destruct (target_prevalence_pos doublet_ratio Hr) as [Hds Hrange].
  set (d_s := doublet_ratio / (doublet_ratio + 1)) in *.
  exists (Fin d_s). split; [easy|].
  assert (Hall : forall n, exists st,
    iterate n (Fin d_s) (firstn num_cells logit_doublet_score)
            (initial_state (firstn num_cells doublet_score)) = Ok st /\
    Forall in_unit (solo_scores st)).
  { intros n.
    destruct (iterate_in_unit d_s (firstn num_cells logit_doublet_score)
                (initial_state (firstn num_cells doublet_score)) Hrange)
      with (n := n) as [st [Hi [Hs _]]].
    - now apply Forall_firstn.
    - cbn. now apply Forall_firstn.
    - cbn. rewrite !length_firstn. lia.
    - exists st. easy. }
  split; [exact Hall|].
  intros fuel st. unfold calibrate. rewrite Hds. intros H.
  apply while_loop_sound in H. destruct H as [n [_ [Hi _]]].
  destruct (Hall n) as [st' [Hi' Hs]]. rewrite Hi in Hi'.
  injection Hi' as <-. exact Hs.
Qed.

Lemma calibrated_scores_in_unit_witness :
  exists d_s, target_prevalence (Fin 2) = Ok d_s /\
    (forall n, exists st,
        iterate n d_s (firstn 1 [Fin 0; Fin 3])
                (initial_state (firstn 1 [Fin (1 / 4); Fin 1])) = Ok st /\
        Forall in_unit (solo_scores st)) /\
    (forall fuel st,
        calibrate fuel (Fin 2) [Fin (1 / 4); Fin 1] [Fin 0; Fin 3] 1
          = Some (Ok st) ->
        Forall in_unit (solo_scores st)).
Proof.
  apply (calibrated_scores_in_unit 2 [Fin (1 / 4); Fin 1] [Fin 0; Fin 3] 1).
  - lra.
  - reflexivity.
  - repeat constructor.
    + exists (1 / 4). split; [reflexivity|lra].
    + exists 1. split; [reflexivity|lra].
  - repeat constructor.
Defined.

(** ** C1: what the convergence branch bounds *)

Lemma mean_singleton (x : R) : NP.mean [Fin x] = Fin x.
Proof. exact (mean_const x 0). Qed.

Lemma logit_half : logit (1 / 2) = 0.
Proof.
  unfold logit. replace (1 / 2 / (1 - 1 / 2)) with 1 by field. apply ln_1.
Qed.

(** With a target prevalence of 1/2 and a single cell of logit 0, every
    score strictly between 0 and 1 is a fixed point of the update. *)
Lemma loop_body_fixed_point (p : R) (st : loop_state) :
  0 < p < 1 ->
  solo_scores st = [Fin p] ->
  loop_body (Fin (1 / 2)) [Fin 0] st =
  Ok {| diff := Fin 0;
        counter_update := S (counter_update st);
        solo_scores := [Fin p] |}.
Proof.
  intros Hp Hs. unfold loop_body. rewrite Hs, mean_singleton.
  rewrite bias_fin_open by lra. cbn [bind map].
  rewrite logit_half, update_score_fin.
  replace (0 + (logit p - 0)) with (logit p) by lra.
  rewrite sigmoid_logit by easy. rewrite mean_singleton.
  cbn [NP.sub NP.neg NP.add NP.abs].
  replace (p + - p) with 0 by lra. now rewrite Rabs_R0.
Qed.

Lemma iterate_fixed_point (p : R) :
  0 < p < 1 ->
  forall n,
  iterate (S n) (Fin (1 / 2)) [Fin 0] (initial_state [Fin p]) =
  Ok {| diff := Fin 0; counter_update := S n; solo_scores := [Fin p] |}.
Proof.
  intros Hp. induction n as [|n IH].
  - cbn [iterate bind]. now apply (loop_body_fixed_point p).
  - change (iterate (S (S n)) (Fin (1 / 2)) [Fin 0] (initial_state [Fin p]))
      with (st' <- iterate (S n) (Fin (1 / 2)) [Fin 0]
                     (initial_state [Fin p]) ;;
            loop_body (Fin (1 / 2)) [Fin 0] st').
    rewrite IH. cbn [bind]. now rewrite (loop_body_fixed_point p).
Qed.

Lemma target_prevalence_one : target_prevalence (Fin 1) = Ok (Fin (1 / 2)).
Proof.
  destruct (target_prevalence_pos 1 ltac:(lra)) as [H _]. rewrite H.
  replace (1 / (1 + 1)) with (1 / 2) by lra. reflexivity.
Qed.

(** A run that stops after exactly five iterations on a score that is not
    the target. *)
Lemma calibrate_fixed_point (p : R) (fuel : nat)
  (doublet_score logit_doublet_score : list float) (num_cells : nat) :
  0 < p < 1 -> (5 <= fuel)%nat ->
  firstn num_cells doublet_score = [Fin p] ->
  firstn num_cells logit_doublet_score = [Fin 0] ->
  calibrate fuel (Fin 1) doublet_score logit_doublet_score num_cells =
  Some (Ok {| diff := Fin 0; counter_update := 5; solo_scores := [Fin p] |}).
Proof.
  intros Hp Hfuel Hd Hl. unfold calibrate. rewrite target_prevalence_one.
  rewrite Hd, Hl. apply (while_loop_complete 5).
  - now apply iterate_fixed_point.
  - unfold loop_cond. cbn [diff counter_update].
    unfold NP.gt. cbn [NP.lt]. rewrite Rltb_ge by lra. reflexivity.
  - intros m st_m Hm Hi. apply loop_cond_early.
    apply iterate_counter in Hi. cbn in Hi. lia.
  - exact Hfuel.
Qed.

(** C1, refuted as stated.  With a doublet ratio of 1 the target prevalence
    is 1/2.  On a single cell of logit 0 and initial score 1/4 (the arrays
    [main] computes from the logit pair (-ln 3, 0)) the loop leaves the
    score at 1/4 in every iteration, so it exits after the fifth with a
    delta of 0, under the convergence branch, while the mean of the
    returned scores is 1/4 away from the target. *)
Lemma converged_mean_off_target :
  doublet_score [(Fin (- ln 3), Fin 0)] = [Fin (1 / 4)] /\
  logit_doublet_score [(Fin (- ln 3), Fin 0)] = [Fin 0] /\
  exists st,
    calibrate 5 (Fin 1) [Fin (1 / 4)] [Fin 0] 1 = Some (Ok st) /\
    counter_update st = 5%nat /\
    NP.gt (diff st) (Fin (1 / 100)) = false /\
    target_prevalence (Fin 1) = Ok (Fin (1 / 2)) /\
    NP.mean (solo_scores st) = Fin (1 / 4) /\
    NP.gt (NP.abs (NP.sub (NP.mean (solo_scores st)) (Fin (1 / 2))))
          (Fin (1 / 100)) = true.
Proof.
  split; [|split; [reflexivity|]].
  { unfold doublet_score, softmax. cbn [map]. rewrite softmax_row_fin.
    cbn [fst]. do 2 f_equal. unfold sigmoid.
    replace (- (- ln 3 - 0)) with (ln 3) by lra.
    rewrite exp_ln by lra. lra. }
  eexists. split; [apply (calibrate_fixed_point (1 / 4)); [lra|lia|easy|easy]|].
  cbn [counter_update diff solo_scores]. rewrite mean_singleton.
  repeat split.
  - unfold NP.gt. cbn [NP.lt]. apply Rltb_ge. lra.
  - apply target_prevalence_one.
  - cbn [NP.sub NP.neg NP.add NP.abs]. apply gt_fin.
    replace (1 / 4 + - (1 / 2)) with (- (1 / 4)) by lra.
    rewrite Rabs_Ropp, Rabs_pos_eq; lra.
Qed.

(** C1, amended.  For a positive doublet ratio, at least one real cell,
    finite logits and initial scores in [0, 1], a run that leaves the loop
    has executed at least 5 iterations, and the mean of the returned scores
    differs by at most 0.01 from the mean observed at the start of the last
    iteration. *)
Theorem converged_mean_near_previous_mean
  (doublet_ratio : R) (doublet_score logit_doublet_score : list float)
  (num_cells fuel : nat) (st : loop_state) :
  0 < doublet_ratio ->
  length doublet_score = length logit_doublet_score ->
  Forall in_unit doublet_score ->
  Forall finite logit_doublet_score ->
  (0 < num_cells)%nat ->
  doublet_score <> [] ->
  calibrate fuel (Fin doublet_ratio) doublet_score logit_doublet_score
            num_cells = Some (Ok st) ->
  exists n st_prev m_prev m_final,
    (5 <= S n)%nat /\
    iterate n (Fin (doublet_ratio / (doublet_ratio + 1)))
            (firstn num_cells logit_doublet_score)
            (initial_state (firstn num_cells doublet_score)) = Ok st_prev /\
    loop_body (Fin (doublet_ratio / (doublet_ratio + 1)))
              (firstn num_cells logit_doublet_score) st_prev = Ok st /\
    NP.mean (solo_scores st_prev) = Fin m_prev /\
    NP.mean (solo_scores st) = Fin m_final /\
    Rabs (m_prev - m_final) <= 1 / 100.
Proof.
  intros Hr Hlen Hu Hfin Hnc Hne. unfold calibrate.
  destruct (target_prevalence_pos doublet_ratio Hr) as [Hds Hrange].
  rewrite Hds. set (d_s := doublet_ratio / (doublet_ratio + 1)) in *.
  set (ls := firstn num_cells logit_doublet_score).
  set (st0 := initial_state (firstn num_cells doublet_score)).
  intros H. apply while_loop_sound in H.
  destruct H as [n [_ [Hi [Hf _]]]].
  assert (Hcnt : counter_update st = n).
  { apply iterate_counter in Hi. cbn in Hi. lia. }
  assert (H5 : (5 <= n)%nat).
  { destruct (Nat.lt_ge_cases n 5) as [Hlt|]; [|easy].
    rewrite loop_cond_early in Hf by lia. discriminate. }
  destruct n as [|n]; [lia|]. cbn [iterate] in Hi.
  assert (Hfin' : Forall finite ls) by now apply Forall_firstn.
  assert (Hu0 : Forall in_unit (solo_scores st0))
    by (cbn; now apply Forall_firstn).
  assert (Hl0 : length (solo_scores st0) = length ls).
  { cbn. unfold ls. rewrite !length_firstn. lia. }
  assert (Hpos : (0 < length ls)%nat).
  { unfold ls. rewrite length_firstn, <- Hlen.
    destruct doublet_score; [easy|]. cbn [length]. lia. }
  destruct (iterate_in_unit d_s ls st0 Hrange Hfin' Hu0 Hl0 n)
    as [st_prev [Hp [Hup Hlp]]].
  rewrite Hp in Hi. cbn [bind] in Hi.
  destruct (loop_body_in_unit d_s ls st_prev Hrange Hfin' Hup Hlp)
    as [st' [Hb [Hus Hls]]].
  rewrite Hb in Hi. injection Hi as ->.
  assert (Hnil : forall l : list float, length l = length ls -> l <> []).
  { intros l Hl E. rewrite E in Hl. cbn in Hl. lia. }
  destruct (mean_in_unit _ (Hnil _ Hlp) Hup) as [m_prev [Hmp _]].
  destruct (mean_in_unit _ (Hnil _ Hls) Hus) as [m_final [Hmf _]].
  exists n, st_prev, m_prev, m_final.
  repeat split; try easy.
  rewrite loop_cond_late in Hf by lia.
  destruct (loop_body_Ok _ _ _ _ Hb) as [c [_ [_ [_ Hd]]]].
  rewrite Hd, Hmp, Hmf in Hf. cbn [NP.sub NP.neg NP.add NP.abs] in Hf.
  unfold NP.gt in Hf. cbn [NP.lt] in Hf. apply Rltb_false in Hf.
  exact Hf.
Qed.

Lemma converged_mean_near_previous_mean_witness :
  exists n st_prev m_prev m_final,
    (5 <= S n)%nat /\
    iterate n (Fin (1 / (1 + 1))) (firstn 1 [Fin 0])
            (initial_state (firstn 1 [Fin (1 / 4)])) = Ok st_prev /\
    loop_body (Fin (1 / (1 + 1))) (firstn 1 [Fin 0]) st_prev =
      Ok {| diff := Fin 0; counter_update := 5;
            solo_scores := [Fin (1 / 4)] |} /\
    NP.mean (solo_scores st_prev) = Fin m_prev /\
    NP.mean [Fin (1 / 4)] = Fin m_final /\
    Rabs (m_prev - m_final) <= 1 / 100.
Proof.
  apply (converged_mean_near_previous_mean 1 [Fin (1 / 4)] [Fin 0] 1 5
           {| diff := Fin 0; counter_update := 5;
              solo_scores := [Fin (1 / 4)] |}).
  - lra.
  - reflexivity.
  - repeat constructor. exists (1 / 4). split; [reflexivity|lra].
  - repeat constructor.
  - lia.
  - discriminate.
  - apply (calibrate_fixed_point (1 / 4)); [lra|lia|easy|easy].
Defined.

(** ** C8: the update and the order of the cells *)

Lemma sigmoid_lt_iff (x y : R) :
  NP.Rltb (sigmoid x) (sigmoid y) = NP.Rltb x y.
Proof.
  destruct (Rlt_dec x y) as [H|H].
  - rewrite (Rltb_lt x y H). apply Rltb_lt. now apply sigmoid_increasing.
  - rewrite (Rltb_ge x y) by lra. apply Rltb_ge.
    destruct (Req_dec_T x y) as [->|Hn]; [lra|].
    apply Rlt_le, sigmoid_increasing. lra.
Qed.

Lemma update_score_in_open_unit (c : R) (l : float) :
  finite l -> in_open_unit (update_score (Fin c) l).
Proof.
  intros Hl. destruct l as [l| | |]; try discriminate.
  rewrite update_score_fin. exists (sigmoid (l + c)).
  split; [easy|apply sigmoid_range].
Qed.

Lemma nth_finite (ls : list float) (i : nat) :
  Forall finite ls -> (i < length ls)%nat -> exists l, nth i ls NaN = Fin l.
Proof.
  intros H Hi. rewrite Forall_forall in H.
  pose proof (H _ (nth_In ls NaN Hi)) as Hf.
  destruct (nth i ls NaN) as [l| | |]; try discriminate. now exists l.
Qed.

(** An iteration that starts from scores strictly inside (0, 1) has a
    finite bias and ends on such scores. *)
Lemma loop_body_open_unit (d_s : R) (ls : list float) (st : loop_state) :
  0 < d_s < 1 ->
  Forall finite ls ->
  ls <> [] ->
  Forall in_open_unit (solo_scores st) ->
  length (solo_scores st) = length ls ->
  exists c st', loop_body (Fin d_s) ls st = Ok st' /\
    solo_scores st' = map (update_score (Fin c)) ls /\
    Forall in_open_unit (solo_scores st') /\
    length (solo_scores st') = length ls.
Proof.
  intros Hs Hfin Hne Hu Hlen. unfold loop_body.
  assert (Hne' : solo_scores st <> []).
  { intros E. rewrite E in Hlen. destruct ls; [easy|discriminate]. }
  destruct (mean_in_open_unit _ Hne' Hu) as [m [Hm Hrange]].
  rewrite Hm, bias_fin_open by easy. cbn [bind].
  eexists. eexists. split; [reflexivity|]. cbn [solo_scores].
  split; [reflexivity|]. split; [|apply length_map].
  apply Forall_map. eapply Forall_impl; [|exact Hfin].
  intros a Ha. now apply update_score_in_open_unit.
Qed.

Lemma iterate_open_unit (d_s : R) (ls : list float) (st : loop_state) :
  0 < d_s < 1 ->
  Forall finite ls ->
  ls <> [] ->
  Forall in_open_unit (solo_scores st) ->
  length (solo_scores st) = length ls ->
  forall n, exists c st', iterate (S n) (Fin d_s) ls st = Ok st' /\
    solo_scores st' = map (update_score (Fin c)) ls /\
    Forall in_open_unit (solo_scores st') /\
    length (solo_scores st') = length ls.
Proof.
  intros Hs Hfin Hne Hu Hlen. induction n as [|n [c [st1 [Hi [_ [Hu1 Hl1]]]]]].
  - cbn [iterate bind]. now apply loop_body_open_unit.
  - destruct (loop_body_open_unit d_s ls st1 Hs Hfin Hne Hu1 Hl1)
      as [c' [st2 [Hb H2]]].
    exists c', st2. split; [|easy].
    change (iterate (S (S n)) (Fin d_s) ls st)
      with (st' <- iterate (S n) (Fin d_s) ls st ;;
            loop_body (Fin d_s) ls st').
    rewrite Hi. exact Hb.
Qed.

(** C8, refuted as stated.  With a target prevalence of 1/2 and two cells
    whose scores are both 0, the observed mean is 0, the bias is [-inf] and
    the iteration gives both cells the score 0 although their logits, 1
    and 2, differ. *)
Lemma degenerate_mean_collapses_order :
  exists st,
    loop_body (Fin (1 / 2)) [Fin 1; Fin 2] (initial_state [Fin 0; Fin 0])
      = Ok st /\
    solo_scores st = [Fin 0; Fin 0] /\
    NP.gt (Fin 2) (Fin 1) = true /\
    NP.gt (nth 1 (solo_scores st) NaN) (nth 0 (solo_scores st) NaN) = false.
Proof.
  unfold loop_body. cbn [initial_state solo_scores].
  change [Fin 0; Fin 0] with (repeat (Fin 0) 2).
  rewrite mean_const, bias_fin, log_odds_zero by lra.
  cbn [NP.sub NP.neg NP.add bind map]. rewrite !update_score_ninf.
  eexists. split; [reflexivity|]. cbn [solo_scores nth].
  repeat split.
  - apply gt_fin. lra.
  - unfold NP.gt. cbn [NP.lt]. apply Rltb_ge. lra.
Qed.

Lemma le_fin (x y : R) : NP.le (Fin x) (Fin y) = true <-> x <= y.
Proof.
  cbn [NP.le]. rewrite negb_true_iff. apply Rltb_false.
Qed.

Lemma sigmoid_le (x y : R) : x <= y -> sigmoid x <= sigmoid y.
Proof.
  intros [H| ->]; [|lra]. apply Rlt_le. now apply sigmoid_increasing.
Qed.

(** For a bias that is not [nan], infinite ones included, the update never
    inverts two logits. *)
Lemma update_score_le (c : float) (l1 l2 : R) :
  not_nan c -> l1 <= l2 ->
  NP.le (update_score c (Fin l1)) (update_score c (Fin l2)) = true.
Proof.
  intros Hc Hl. destruct c as [c| | |]; try discriminate.
  - rewrite !update_score_fin. apply le_fin. apply sigmoid_le. lra.
  - rewrite !update_score_pinf. apply le_fin. lra.
  - rewrite !update_score_ninf. apply le_fin. lra.
Qed.

Lemma map_update_le (c : float) (ls : list float) (i j : nat) :
  not_nan c -> Forall finite ls ->
  (i < length ls)%nat -> (j < length ls)%nat ->
  NP.le (nth i ls NaN) (nth j ls NaN) = true ->
  NP.le (nth i (map (update_score c) ls) NaN)
        (nth j (map (update_score c) ls) NaN) = true.
Proof.
  intros Hc Hfin Hi Hj.
  rewrite (nth_indep (map _ ls) NaN (update_score c NaN) (n := i))
    by (now rewrite length_map).
  rewrite (nth_indep (map _ ls) NaN (update_score c NaN) (n := j))
    by (now rewrite length_map).
  rewrite !map_nth.
  destruct (nth_finite ls i Hfin Hi) as [l1 ->].
  destruct (nth_finite ls j Hfin Hj) as [l2 ->].
  intros Hle. apply update_score_le; [easy|]. now apply le_fin.
Qed.

(** An iteration that starts from scores of [0, 1] has a bias that is not
    [nan]. *)
Lemma loop_body_unit_bias (d_s : R) (ls : list float) (st : loop_state) :
  0 < d_s < 1 ->
  ls <> [] ->
  Forall in_unit (solo_scores st) ->
  length (solo_scores st) = length ls ->
  exists c st', loop_body (Fin d_s) ls st = Ok st' /\
    not_nan c /\
    solo_scores st' = map (update_score c) ls.
Proof.
  intros Hs Hne Hu Hlen. unfold loop_body.
  assert (Hne' : solo_scores st <> []).
  { intros E. rewrite E in Hlen. destruct ls; [easy|discriminate]. }
  destruct (bias_of_unit_mean d_s _ Hs (mean_in_unit _ Hne' Hu))
    as [c [Hc Hn]].
  rewrite Hc. cbn [bind]. exists c. eexists.
  split; [reflexivity|]. split; [exact Hn|reflexivity].
Qed.

(** C8, amended.  For a bias that is not [nan] the update is a
    non-decreasing function of the logit: it never inverts two cells, but
    it can give cells with different logits the same score (always so for
    an infinite bias).  For a target prevalence strictly between 0 and 1,
    finite logits and initial scores in [0, 1], the bias of every
    iteration is not [nan], so after every iteration, and in the returned
    array, a cell with the smaller or equal logit has the smaller or equal
    score. *)
Theorem calibration_preserves_order
  (d_s : R) (initial_score logit_scores : list float) :
  0 < d_s < 1 ->
  length initial_score = length logit_scores ->
  Forall in_unit initial_score ->
  Forall finite logit_scores ->
  (forall (c : float) (l1 l2 : R),
      not_nan c -> l1 <= l2 ->
      NP.le (update_score c (Fin l1)) (update_score c (Fin l2)) = true) /\
  (forall n i j,
      (i < length logit_scores)%nat ->
      (j < length logit_scores)%nat ->
      NP.le (nth i logit_scores NaN) (nth j logit_scores NaN) = true ->
      exists st,
        iterate (S n) (Fin d_s) logit_scores (initial_state initial_score)
        = Ok st /\
        NP.le (nth i (solo_scores st) NaN) (nth j (solo_scores st) NaN)
        = true) /\
  (forall fuel st i j,
      while_loop fuel (Fin d_s) logit_scores (initial_state initial_score)
      = Some (Ok st) ->
      (i < length logit_scores)%nat ->
      (j < length logit_scores)%nat ->
      NP.le (nth i logit_scores NaN) (nth j logit_scores NaN) = true ->
      NP.le (nth i (solo_scores st) NaN) (nth j (solo_scores st) NaN)
      = true).
Proof.
  intros Hs Hlen Hu Hfin.
  set (ls := logit_scores) in *.
  set (st0 := initial_state initial_score).
  assert (Hu0 : Forall in_unit (solo_scores st0)) by exact Hu.
  assert (Hl0 : length (solo_scores st0) = length ls) by exact Hlen.
  assert (Hstep : forall n i j,
    (i < length ls)%nat -> (j < length ls)%nat ->
    NP.le (nth i ls NaN) (nth j ls NaN) = true ->
    exists st, iterate (S n) (Fin d_s) ls st0 = Ok st /\
      NP.le (nth i (solo_scores st) NaN) (nth j (solo_scores st) NaN)
      = true).
  { intros n i j Hi Hj Hle.
    assert (Hne : ls <> []) by (intros E; rewrite E in Hi; cbn in Hi; lia).
    destruct (iterate_in_unit d_s ls st0 Hs Hfin Hu0 Hl0 n)
      as [st1 [Hit [Hu1 Hl1]]].
    destruct (loop_body_unit_bias d_s ls st1 Hs Hne Hu1 Hl1)
      as [c [st [Hb [Hc Hsc]]]].
    exists st. split.
    - cbn [iterate]. rewrite Hit. exact Hb.
    - rewrite Hsc. now apply map_update_le. }
  split; [exact update_score_le|]. split; [exact Hstep|].
  intros fuel st i j H Hi Hj Hle.
  apply while_loop_sound in H. destruct H as [n [_ [Hit [Hf _]]]].
  destruct n as [|n].
  - cbn in Hit. injection Hit as <-. discriminate.
  - destruct (Hstep n i j Hi Hj Hle) as [st' [Hit' Ho]].
    fold st0 in Hit. rewrite Hit in Hit'. injection Hit' as <-. exact Ho.
Qed.

Lemma calibration_preserves_order_witness :
  exists st,
    iterate 1 (Fin (2 / 3)) [Fin 0; Fin 3]
            (initial_state [Fin 0; Fin (1 / 2)]) = Ok st /\
    NP.le (nth 0 (solo_scores st) NaN) (nth 1 (solo_scores st) NaN) = true.
Proof.
  apply (calibration_preserves_order (2 / 3) [Fin 0; Fin (1 / 2)]
           [Fin 0; Fin 3]).
  - lra.
  - reflexivity.
  - repeat constructor.
    + exists 0. split; [reflexivity|lra].
    + exists (1 / 2). split; [reflexivity|lra].
  - repeat constructor.
  - cbn. lia.
  - cbn. lia.
  - apply le_fin. lra.
Defined.

(** ** C4: which column feeds the loop *)

(** C4, evaluated on one cell with logits (0, 1).  The initial score is the
    softmax component of column 0, which is below 1/2, while the logit
    handed to the loop is the one of column 1, whose softmax component is
    above 1/2: the two arrays describe different classes. *)
Theorem initial_score_is_other_class :
  exists p0 p1,
    softmax [(Fin 0, Fin 1)] = [(Fin p0, Fin p1)] /\
    doublet_score [(Fin 0, Fin 1)] = [Fin p0] /\
    logit_doublet_score [(Fin 0, Fin 1)] = [Fin 1] /\
    p0 < 1 / 2 < p1.
Proof.
  exists (sigmoid (0 - 1)), (sigmoid (1 - 0)).
  unfold doublet_score, logit_doublet_score, softmax. cbn [map].
  rewrite softmax_row_fin. repeat split.
  - rewrite <- sigmoid_0. apply sigmoid_increasing. lra.
  - rewrite <- sigmoid_0. apply sigmoid_increasing. lra.
Qed.

(** ** The order on floating-point values *)

Ltac float_order :=
  repeat match goal with
         | a : float |- _ => destruct a
         end;
  unfold not_nan, sort_le, NP.gt, NP.max2, NP.le, NP.lt, NP.is_nan,
    NP.Rltb in *;
  repeat match goal with
         | |- context [Rlt_dec ?x ?y] => destruct (Rlt_dec x y)
         | H : context [Rlt_dec ?x ?y] |- _ => destruct (Rlt_dec x y)
         end;
  cbn in *; try discriminate; try reflexivity; try lra;
  try (f_equal; lra).

Lemma le_refl (a : float) : not_nan a -> NP.le a a = true.
Proof. intros H. float_order. Qed.

Lemma lt_irrefl (a : float) : NP.lt a a = false.
Proof. float_order. Qed.

Lemma lt_le (a b : float) : NP.lt a b = true -> NP.le a b = true.
Proof. intros H. float_order. Qed.

Lemma le_neq_lt (a b : float) :
  NP.le a b = true -> a <> b -> NP.lt a b = true.
Proof.
  intros H Hn.
  destruct a as [x| | |], b as [y| | |]; cbn in *;
    try discriminate; try reflexivity; try (exfalso; now apply Hn).
  assert (x <> y) by (intros E; apply Hn; now f_equal).
  apply Rltb_lt. apply negb_true_iff, Rltb_false in H. lra.
Qed.

Lemma gt_not_le (a b : float) :
  not_nan a -> not_nan b -> NP.gt a b = negb (NP.le a b).
Proof. intros Ha Hb. float_order. Qed.

Lemma le_lt_trans (a b c : float) :
  NP.le a b = true -> NP.lt b c = true -> NP.lt a c = true.
Proof. intros H1 H2. float_order. Qed.

Lemma le_trans (a b c : float) :
  NP.le a b = true -> NP.le b c = true -> NP.le a c = true.
Proof. intros H1 H2. float_order. Qed.

Lemma le_le_not_lt (t p x : float) :
  NP.le t p = true -> NP.le p x = true -> NP.lt x t = false.
Proof. intros H1 H2. float_order. Qed.

Lemma lt_total (a b : float) :
  not_nan a -> not_nan b ->
  NP.lt a b = true \/ a = b \/ NP.lt b a = true.
Proof.
  intros Ha Hb. destruct a as [x| | |], b as [y| | |]; try discriminate;
    cbn; auto.
  destruct (Rtotal_order x y) as [H|[H|H]].
  - left. now apply Rltb_lt.
  - right. left. now f_equal.
  - right. right. now apply Rltb_lt.
Qed.

Lemma sort_le_not_nan (a b : float) :
  not_nan b -> sort_le a b = NP.le a b.
Proof. intros H. destruct b; try discriminate; reflexivity. Qed.

Lemma sort_le_refl (a : float) : sort_le a a = true.
Proof. float_order. Qed.

Lemma sort_le_total (a b : float) :
  sort_le a b = false -> sort_le b a = true.
Proof. intros H. float_order. Qed.

Lemma sort_le_trans (a b c : float) :
  sort_le a b = true -> sort_le b c = true -> sort_le a c = true.
Proof. intros H1 H2. float_order. Qed.

Lemma max2_not_nan (a b : float) :
  not_nan a -> not_nan b ->
  not_nan (NP.max2 a b) /\
  (NP.max2 a b = a \/ NP.max2 a b = b) /\
  NP.le a (NP.max2 a b) = true /\ NP.le b (NP.max2 a b) = true.
Proof.
  intros Ha Hb.
  destruct a as [x| | |], b as [y| | |]; try discriminate;
    cbn; unfold NP.Rltb; try destruct (Rlt_dec x y);
    cbn; unfold NP.Rltb;
    repeat match goal with
           | |- context [Rlt_dec ?u ?v] => destruct (Rlt_dec u v)
           end; cbn; repeat split; auto; try lra.
Qed.

(** [np.max] of an array without [nan]: an entry that no entry exceeds. *)
Lemma max_spec (l : list float) :
  l <> [] -> Forall not_nan l ->
  exists t, NP.max l = Ok t /\ In t l /\ not_nan t /\
            Forall (fun x => NP.le x t = true) l.
Proof.
  destruct l as [|x l]; [easy|]. intros _ H. inversion H as [|? ? Hx Hl]. subst.
  cbn [NP.max]. exists (fold_left NP.max2 l x). split; [reflexivity|].
  clear H. revert x Hx.
  induction Hl as [|y l Hy Hl IH]; intros x Hx.
  - cbn. repeat split; auto. constructor; [now apply le_refl|constructor].
  - cbn [fold_left].
    destruct (max2_not_nan x y Hx Hy) as [Hm [Hor [Hlx Hly]]].
    destruct (IH _ Hm) as [Hin [Hn Hall]].
    inversion Hall as [|? ? Hmt Hrest]. subst.
    repeat split.
    + destruct Hin as [Hin|Hin].
      * destruct Hor as [E|E].
        -- left. congruence.
        -- right. left. congruence.
      * right. right. exact Hin.
    + exact Hn.
    + constructor; [eapply le_trans; eassumption|].
      constructor; [eapply le_trans; eassumption|exact Hrest].
Qed.

(** ** Counting entries *)

Section Counting.
Context {A : Type}.
Implicit Types (f g : A -> bool) (l : list A).

Lemma count_perm f l l' :
  Permutation l l' -> length (filter f l) = length (filter f l').
Proof.
  induction 1 as [|x l l' _ IH|x y l|l l' l'' _ IH1 _ IH2]; cbn.
  - reflexivity.
  - destruct (f x); cbn; congruence.
  - destruct (f x), (f y); reflexivity.
  - congruence.
Qed.

Lemma count_all f l :
  Forall (fun x => f x = true) l -> length (filter f l) = length l.
Proof.
  induction 1 as [|x l Hx _ IH]; cbn; [easy|]. rewrite Hx. cbn. congruence.
Qed.

Lemma count_none f l :
  Forall (fun x => f x = false) l -> length (filter f l) = O.
Proof. induction 1 as [|x l Hx _ IH]; cbn; [easy|]. now rewrite Hx. Qed.

Lemma count_bound f l : (length (filter f l) <= length l)%nat.
Proof. induction l as [|x l IH]; cbn; [lia|]. destruct (f x); cbn; lia. Qed.

Lemma count_missing f l x :
  In x l -> f x = false -> (length (filter f l) < length l)%nat.
Proof.
  induction l as [|y l IH]; cbn; [easy|]. intros [->|Hin] Hx.
  - rewrite Hx. pose proof (count_bound f l). lia.
  - specialize (IH Hin Hx). destruct (f y); cbn; lia.
Qed.

Lemma count_mono f g l :
  (forall x, In x l -> f x = true -> g x = true) ->
  (length (filter f l) <= length (filter g l))%nat.
Proof.
  induction l as [|x l IH]; cbn; [lia|]. intros H.
  assert (IH' : (length (filter f l) <= length (filter g l))%nat)
    by (apply IH; intros; apply H; auto).
  destruct (f x) eqn:Hf.
  - rewrite (H x) by auto. cbn. lia.
  - destruct (g x); cbn; lia.
Qed.

Lemma count_split f g l :
  (forall x, In x l -> g x = negb (f x)) ->
  (length (filter f l) + length (filter g l) = length l)%nat.
Proof.
  induction l as [|x l IH]; cbn; [lia|]. intros H.
  assert (IH' : (length (filter f l) + length (filter g l) = length l)%nat)
    by (apply IH; intros; apply H; auto).
  rewrite (H x) by auto. destruct (f x); cbn; lia.
Qed.
End Counting.

Lemma take_seq (a : list float) : take a (seq 0 (length a)) = a.
Proof.
  unfold take. induction a as [|x a IH]; [reflexivity|].
  cbn [length seq map nth]. f_equal.
  rewrite <- seq_shift, map_map. exact IH.
Qed.

Lemma take_perm (a : list float) (idx : list nat) :
  Permutation idx (seq 0 (length a)) -> Permutation (take a idx) a.
Proof.
  intros H. rewrite <- (take_seq a) at 2. now apply Permutation_map.
Qed.

Lemma take_not_nan (a : list float) (idx : list nat) :
  Forall not_nan a ->
  Forall (fun i => (i < length a)%nat) idx ->
  Forall not_nan (take a idx).
Proof.
  intros Ha Hi. apply Forall_map. eapply Forall_impl; [|exact Hi].
  intros i Hlt. rewrite Forall_forall in Ha. apply Ha. now apply nth_In.
Qed.

Lemma Forall_skipn {A : Type} (P : A -> Prop) (n : nat) (l : list A) :
  Forall P l -> Forall P (skipn n l).
Proof.
  intros H. revert n. induction H as [|a l Ha Hl IH]; intros [|n]; cbn; auto.
Qed.

(** ** The quotient of the majority warning *)

Lemma float_overflow_bound_ge_2 : (2 <= float_overflow_bound)%Z.
Proof. apply Z.leb_le. vm_compute. reflexivity. Qed.

Lemma int_truediv_in_range (e n : Z) :
  (0 < n)%Z -> (Z.abs e < float_overflow_bound * n)%Z ->
  int_truediv e n = Ok (Fin (IZR e / IZR n)).
Proof.
  intros Hn He. unfold int_truediv.
  rewrite (proj2 (Z.eqb_neq n 0)) by lia.
  rewrite (Z.abs_eq n) by lia.
  now rewrite (proj2 (Z.leb_gt _ _)) by lia.
Qed.

Lemma int_truediv_overflow (e n : Z) :
  (0 < n)%Z -> (float_overflow_bound * n <= Z.abs e)%Z ->
  int_truediv e n = Raise OverflowError.
Proof.
  intros Hn He. unfold int_truediv.
  rewrite (proj2 (Z.eqb_neq n 0)) by lia.
  rewrite (Z.abs_eq n) by lia.
  now rewrite (proj2 (Z.leb_le _ _)) by lia.
Qed.

Lemma within_population_in_range (e n : Z) :
  (0 < n)%Z -> (Z.abs e <= n)%Z -> (Z.abs e < float_overflow_bound * n)%Z.
Proof.
  intros Hn He. pose proof float_overflow_bound_ge_2 as Hb.
  assert (2 * n <= float_overflow_bound * n)%Z
    by (apply Z.mul_le_mono_nonneg_r; lia).
  lia.
Qed.

(** ** The threshold is the k-th order statistic *)

(** Whatever partition [np.argpartition] returns, the largest of the [k]
    entries it puts first is an entry [t] of the array with fewer than [k]
    entries strictly below it and at least [k] entries at or below it. *)
Lemma partition_threshold (a : list float) (k : nat) (idx : list nat) :
  Forall not_nan a ->
  (0 < k < length a)%nat ->
  is_argpartition a k idx ->
  exists t, NP.max (take a (firstn k idx)) = Ok t /\
    In t a /\ not_nan t /\
    (count_lt t a < k <= count_le t a)%nat.
Proof.
  intros Ha Hk [Hperm [Hfirst Hrest]].
  assert (Hlen : length idx = length a).
  { rewrite (Permutation_length Hperm). apply length_seq. }
  assert (Hvalid : Forall (fun i => (i < length a)%nat) idx).
  { apply Forall_forall. intros i Hi.
    apply (Permutation_in _ Hperm), in_seq in Hi. lia. }
  pose proof (take_perm a idx Hperm) as Hpa.
  assert (Hsplit : take a idx
                   = take a (firstn k idx) ++ take a (skipn k idx)).
  { unfold take. now rewrite <- map_app, firstn_skipn. }
  assert (Hn1 : Forall not_nan (take a (firstn k idx)))
    by (apply take_not_nan; [easy|now apply Forall_firstn]).
  assert (Hn2 : Forall not_nan (take a (skipn k idx)))
    by (apply take_not_nan; [easy|now apply Forall_skipn]).
  assert (Hl1 : length (take a (firstn k idx)) = k).
  { unfold take. rewrite length_map, length_firstn. lia. }
  destruct (max_spec (take a (firstn k idx))) as [t [Ht [Hin [Hnt Hall]]]];
    [intros E; rewrite E in Hl1; cbn in Hl1; lia|easy|].
  exists t. split; [easy|].
  assert (Hta : In t a).
  { apply (Permutation_in _ Hpa). rewrite Hsplit. apply in_or_app. now left. }
  split; [easy|]. split; [easy|].
  set (p := nth (nth k idx O) a NaN) in *.
  assert (Hp : not_nan p).
  { rewrite Forall_forall in Ha. apply Ha. apply nth_In.
    rewrite Forall_forall in Hvalid. apply Hvalid. apply nth_In. lia. }
  assert (Htp : NP.le t p = true).
  { unfold take in Hin. apply in_map_iff in Hin. destruct Hin as [i [<- Hi]].
    rewrite Forall_forall in Hfirst. rewrite <- (sort_le_not_nan _ p Hp).
    now apply Hfirst. }
  unfold count_lt, count_le.
  rewrite (count_perm _ _ _ (Permutation_sym Hpa)).
  rewrite (count_perm (fun s => NP.le s t) _ _ (Permutation_sym Hpa)).
  rewrite Hsplit, !filter_app, !length_app.
  rewrite (count_all (fun s => NP.le s t) _ Hall), Hl1.
  rewrite (count_none (fun s => NP.lt s t) (take a (skipn k idx))).
  - pose proof (count_missing (fun s => NP.lt s t) _ t Hin (lt_irrefl t)).
    lia.
  - apply Forall_forall. intros x Hx.
    apply (le_le_not_lt t p x Htp).
    assert (Hxn : not_nan x) by (rewrite Forall_forall in Hn2; now apply Hn2).
    rewrite <- (sort_le_not_nan _ x Hxn).
    unfold take in Hx. apply in_map_iff in Hx. destruct Hx as [i [<- Hi]].
    rewrite Forall_forall in Hrest. now apply Hrest.
Qed.

(** An array without [nan] has one k-th order statistic. *)
Lemma order_statistic_unique (a : list float) (k : nat) (t t' : float) :
  Forall not_nan a -> not_nan t -> not_nan t' ->
  (count_lt t a < k <= count_le t a)%nat ->
  (count_lt t' a < k <= count_le t' a)%nat ->
  t = t'.
Proof.
  intros Ha Ht Ht' H H'.
  assert (Hlt : forall u v, NP.lt u v = true ->
                (count_le u a <= count_lt v a)%nat).
  { intros u v Huv. apply count_mono. intros x _ Hx.
    now apply (le_lt_trans x u v). }
  destruct (lt_total t t' Ht Ht') as [Hc|[Hc|Hc]]; [|easy|].
  - specialize (Hlt _ _ Hc). lia.
  - specialize (Hlt _ _ Hc). lia.
Qed.

(** ** The sorted partition is one of those numpy may return *)

Lemma insert_index_perm (a : list float) (i : nat) (idx : list nat) :
  Permutation (insert_index a i idx) (i :: idx).
Proof.
  induction idx as [|j idx IH]; cbn; [reflexivity|].
  destruct (sort_le (nth i a NaN) (nth j a NaN)); [reflexivity|].
  rewrite IH. apply perm_swap.
Qed.

Lemma argsort_perm (a : list float) :
  Permutation (argsort a) (seq 0 (length a)).
Proof.
  unfold argsort. induction (seq 0 (length a)) as [|i l IH]; cbn;
    [reflexivity|].
  rewrite insert_index_perm. now constructor.
Qed.

Section Sorted.
Variable a : list float.

Lemma insert_index_sorted (i : nat) (idx : list nat) :
  StronglySorted (index_le a) idx ->
  StronglySorted (index_le a) (insert_index a i idx).
Proof.
  induction 1 as [|j idx Hs IH Hj]; cbn.
  - constructor; constructor.
  - destruct (sort_le (nth i a NaN) (nth j a NaN)) eqn:E.
    + constructor; [now constructor|].
      constructor; [exact E|].
      eapply Forall_impl; [|exact Hj].
      intros x Hx. unfold index_le in *. eapply sort_le_trans; eassumption.
    + constructor; [exact IH|].
      apply Forall_forall. intros x Hx.
      apply (Permutation_in _ (insert_index_perm a i idx)) in Hx.
      destruct Hx as [<-|Hx].
      * now apply sort_le_total.
      * rewrite Forall_forall in Hj. now apply Hj.
Qed.

Lemma argsort_sorted : StronglySorted (index_le a) (argsort a).
Proof.
  unfold argsort. induction (seq 0 (length a)) as [|i l IH]; cbn.
  - constructor.
  - now apply insert_index_sorted.
Qed.
End Sorted.

Lemma sorted_app_inv {A : Type} (R : A -> A -> Prop) (l1 l2 : list A) :
  StronglySorted R (l1 ++ l2) ->
  StronglySorted R l2 /\ Forall (fun x => Forall (R x) l2) l1.
Proof.
  induction l1 as [|x l1 IH]; cbn; intros H.
  - split; [exact H|constructor].
  - inversion H as [|? ? Hs Hx]. subst. destruct (IH Hs) as [H2 H1].
    split; [exact H2|]. constructor; [|exact H1].
    apply Forall_app in Hx. apply Hx.
Qed.

Lemma skipn_nth {A : Type} (d : A) (l : list A) (k : nat) :
  (k < length l)%nat -> skipn k l = nth k l d :: skipn (S k) l.
Proof.
  revert k. induction l as [|x l IH]; cbn [length]; intros k Hk; [lia|].
  destruct k as [|k]; [reflexivity|].
  cbn [skipn nth]. rewrite IH by lia. reflexivity.
Qed.

Lemma argsort_is_argpartition (a : list float) (k : nat) :
  (k < length a)%nat -> is_argpartition a k (argsort a).
Proof.
  intros Hk. pose proof (argsort_perm a) as Hperm.
  assert (Hlen : length (argsort a) = length a).
  { rewrite (Permutation_length Hperm). apply length_seq. }
  split; [exact Hperm|].
  pose proof (argsort_sorted a) as Hs.
  rewrite <- (firstn_skipn k (argsort a)) in Hs.
  apply sorted_app_inv in Hs. destruct Hs as [H2 H1].
  rewrite (skipn_nth O) in H1, H2 |- * by lia.
  set (p := nth k (argsort a) O) in *.
  split.
  - eapply Forall_impl; [|exact H1]. intros i Hi.
    inversion Hi. subst. assumption.
  - constructor; [apply sort_le_refl|].
    inversion H2. subst. assumption.
Qed.

(** ** C5: the calls for an expected number of doublets *)

Lemma count_true_map (g : float -> bool) (l : list float) :
  count_true (map g l) = length (filter g l).
Proof.
  unfold count_true. induction l as [|x l IH]; cbn; [reflexivity|].
  destruct (g x); cbn; congruence.
Qed.

Lemma lt_not_le (a b : float) : NP.lt a b = true -> NP.le b a = false.
Proof. intros H. float_order. Qed.

Lemma count_le_nodup (t : float) (a : list float) :
  NoDup a -> Forall not_nan a -> not_nan t ->
  (count_le t a <= count_lt t a + 1)%nat.
Proof.
  unfold count_le, count_lt. intros Hnd Ha Ht.
  induction Hnd as [|x a Hx Hnd IH]; cbn [filter]; [cbn; lia|].
  inversion Ha as [|? ? Hxn Ha']. subst. specialize (IH Ha').
  destruct (lt_total x t Hxn Ht) as [Hc|[->|Hc]].
  - rewrite Hc, (lt_le _ _ Hc). cbn [length]. lia.
  - rewrite lt_irrefl, le_refl by easy. cbn [length].
    assert ((length (filter (fun s => NP.le s t) a)
             <= length (filter (fun s => NP.lt s t) a))%nat); [|lia].
    apply count_mono. intros y Hy Hle. apply le_neq_lt; [easy|].
    intros ->. now apply Hx.
  - rewrite (lt_not_le _ _ Hc).
    destruct (NP.lt x t) eqn:E.
    + apply lt_le in E. rewrite (lt_not_le _ _ Hc) in E. discriminate.
    + exact IH.
Qed.

Lemma select_threshold_expected (solo_scores : list float) (e : Z) :
  Forall not_nan solo_scores ->
  (0 < e < Z.of_nat (length solo_scores))%Z ->
  exists warned threshold,
    select_threshold solo_scores (Some e)
    = Ok (warned, threshold, map (fun s => NP.gt s threshold) solo_scores) /\
    In threshold solo_scores /\ not_nan threshold /\
    (Z.of_nat (count_lt threshold solo_scores)
     < Z.of_nat (length solo_scores) - e
     <= Z.of_nat (count_le threshold solo_scores))%Z.
Proof.
  intros Ha He. unfold select_threshold, argpartition.
  set (n := Z.of_nat (length solo_scores)) in *.
  rewrite int_truediv_in_range
    by (try apply within_population_in_range; lia).
  cbn [bind].
  replace (0 <? n - e)%Z with true by (symmetry; apply Z.ltb_lt; lia).
  replace ((n - e <? - n) || (n <=? n - e))%Z with false.
  2:{ symmetry. apply orb_false_iff. split;
        [apply Z.ltb_ge|apply Z.leb_gt]; lia. }
  cbn [bind].
  destruct (partition_threshold solo_scores (Z.to_nat (n - e))
              (argsort solo_scores) Ha)
    as [t [Hmax [Hin [Hnt Hcount]]]].
  - unfold n in *. lia.
  - apply argsort_is_argpartition. unfold n in *. lia.
  - rewrite Hmax. cbn [bind]. eexists. exists t.
    split; [reflexivity|]. repeat split; try easy; lia.
Qed.

(** The threshold does not depend on which partition numpy returns. *)
Lemma threshold_any_partition
  (solo_scores : list float) (e : Z) (idx : list nat) :
  Forall not_nan solo_scores ->
  (0 < e < Z.of_nat (length solo_scores))%Z ->
  is_argpartition solo_scores
    (Z.to_nat (Z.of_nat (length solo_scores) - e)) idx ->
  exists warned threshold,
    select_threshold solo_scores (Some e)
    = Ok (warned, threshold, map (fun s => NP.gt s threshold) solo_scores) /\
    NP.max (take solo_scores
              (firstn (Z.to_nat (Z.of_nat (length solo_scores) - e)) idx))
    = Ok threshold.
Proof.
  intros Ha He Hidx.
  destruct (select_threshold_expected solo_scores e Ha He)
    as [warned [t [Hsel [_ [Hnt Hcount]]]]].
  assert (Hk : (0 < Z.to_nat (Z.of_nat (length solo_scores) - e)
                < length solo_scores)%nat) by lia.
  destruct (partition_threshold solo_scores _ idx Ha Hk Hidx)
    as [t' [Hmax [_ [Hnt' Hcount']]]].
  exists warned, t. split; [exact Hsel|]. rewrite Hmax. f_equal.
  apply (order_statistic_unique solo_scores
           (Z.to_nat (Z.of_nat (length solo_scores) - e))); try easy. lia.
Qed.

(** C5.  For scores without [nan] and [0 < e < n], threshold selection
    returns the calls [scores[i] > threshold] for a threshold that is the
    k-th smallest score, [k = n - e]: it is one of the scores, fewer than
    [k] scores lie strictly below it and at least [k] lie at or below it.
    At most [e] calls are true; a score equal to the threshold is called
    false; every called cell scores above every cell that is not called;
    and when the scores are pairwise distinct exactly [e] calls are true. *)
Theorem expected_doublets_threshold (solo_scores : list float) (e : Z) :
  Forall not_nan solo_scores ->
  (0 < e < Z.of_nat (length solo_scores))%Z ->
  exists warned threshold,
    select_threshold solo_scores (Some e)
    = Ok (warned, threshold, map (fun s => NP.gt s threshold) solo_scores) /\
    In threshold solo_scores /\
    (Z.of_nat (count_lt threshold solo_scores)
     < Z.of_nat (length solo_scores) - e
     <= Z.of_nat (count_le threshold solo_scores))%Z /\
    (Z.of_nat (count_true (map (fun s => NP.gt s threshold) solo_scores))
     <= e)%Z /\
    (forall s, In s solo_scores -> s = threshold ->
               NP.gt s threshold = false) /\
    (forall s s', In s solo_scores -> In s' solo_scores ->
       NP.gt s threshold = true -> NP.gt s' threshold = false ->
       NP.gt s s' = true) /\
    (NoDup solo_scores ->
     Z.of_nat (count_true (map (fun s => NP.gt s threshold) solo_scores))
     = e).
Proof.
  intros Ha He.
  destruct (select_threshold_expected solo_scores e Ha He)
    as [warned [t [Hsel [Hin [Hnt Hcount]]]]].
  exists warned, t. split; [exact Hsel|]. split; [exact Hin|].
  split; [exact Hcount|].
  assert (Hsplit : (count_le t solo_scores
                    + count_true (map (fun s => NP.gt s t) solo_scores)
                    = length solo_scores)%nat).
  { rewrite count_true_map. unfold count_le. apply count_split.
    intros x Hx. apply gt_not_le; [|easy].
    rewrite Forall_forall in Ha. now apply Ha. }
  split; [lia|]. split; [|split].
  - intros s _ ->. apply lt_irrefl.
  - intros s s' Hs Hs' Hg Hg'.
    rewrite Forall_forall in Ha.
    rewrite gt_not_le in Hg' by auto. apply negb_false_iff in Hg'.
    unfold NP.gt in *. now apply (le_lt_trans s' t s).
  - intros Hnd. pose proof (count_le_nodup t solo_scores Hnd Ha Hnt). lia.
Qed.

Lemma expected_doublets_threshold_witness :
  exists warned threshold,
    select_threshold [Fin (1 / 10); Fin (9 / 10); Fin (2 / 10)] (Some 1%Z)
    = Ok (warned, threshold,
          map (fun s => NP.gt s threshold)
              [Fin (1 / 10); Fin (9 / 10); Fin (2 / 10)]) /\
    In threshold [Fin (1 / 10); Fin (9 / 10); Fin (2 / 10)] /\
    (Z.of_nat (count_true (map (fun s => NP.gt s threshold)
                 [Fin (1 / 10); Fin (9 / 10); Fin (2 / 10)])) <= 1)%Z.
Proof.
  destruct (expected_doublets_threshold
              [Fin (1 / 10); Fin (9 / 10); Fin (2 / 10)] 1%Z)
    as [warned [threshold [H1 [H2 [_ [H3 _]]]]]].
  - repeat constructor.
  - cbn. lia.
  - exists warned, threshold. repeat split; assumption.
Defined.

(** The example of tied scores: with [0.1, 0.2, 0.2, 0.2, 0.9] and two
    expected doublets the threshold is 0.2 and one call is true. *)
Example tied_scores_one_call :
  exists warned,
    select_threshold
      [Fin (1 / 10); Fin (2 / 10); Fin (2 / 10); Fin (2 / 10); Fin (9 / 10)]
      (Some 2%Z)
    = Ok (warned, Fin (2 / 10), [false; false; false; false; true]).
Proof.
  set (scores :=
    [Fin (1 / 10); Fin (2 / 10); Fin (2 / 10); Fin (2 / 10); Fin (9 / 10)]).
  assert (Ha : Forall not_nan scores) by (repeat constructor).
  destruct (select_threshold_expected scores 2%Z Ha)
    as [warned [t [Hsel [Hin [Hnt Hcount]]]]]; [cbn; lia|].
  assert (Ht : t = Fin (2 / 10)).
  { apply (order_statistic_unique scores 3 t (Fin (2 / 10)) Ha Hnt);
      [reflexivity|change (Z.of_nat (length scores)) with 5%Z in Hcount; lia|].
    unfold count_lt, count_le, scores. cbn [filter NP.lt NP.le].
    decide_Rltb. cbn. lia. }
  exists warned. rewrite Hsel, Ht. do 2 f_equal.
  unfold scores, NP.gt. cbn [map NP.lt].
  decide_Rltb. reflexivity.
Qed.

(** ** C6 and C10: expected counts outside [0 < e < n] *)

(** C6, refuted as stated.  For an empty score array the quotient of the
    warning is a division by zero, which is raised before the assertion is
    reached. *)
Lemma empty_scores_division_by_zero :
  (1 >= Z.of_nat (length (@nil float)))%Z /\
  select_threshold [] (Some 1%Z) = Raise ZeroDivisionError.
Proof. split; [cbn; lia|reflexivity]. Qed.

(** C6, amended.  When the expected number of doublets is at least the
    number [n] of scores, threshold selection raises and returns no calls:
    the assertion fails when [n >= 1] and the quotient of the warning fits
    a float; for [n = 0] the division of the warning raises first, and so
    does, for [n >= 1], a quotient too large for a float.  [main] then
    raises too and writes no call array. *)
Theorem expected_at_least_population
  (scores : list float) (e : Z) :
  (e >= Z.of_nat (length scores))%Z ->
  (scores <> [] ->
   (e < float_overflow_bound * Z.of_nat (length scores))%Z ->
   select_threshold scores (Some e) = Raise AssertionError) /\
  (scores <> [] ->
   (float_overflow_bound * Z.of_nat (length scores) <= e)%Z ->
   select_threshold scores (Some e) = Raise OverflowError) /\
  (scores = [] -> select_threshold scores (Some e) = Raise ZeroDivisionError) /\
  (forall r, select_threshold scores (Some e) <> Ok r) /\
  (forall fuel logit_predictions num_cells doublet_ratio st,
      calibrate fuel doublet_ratio (doublet_score logit_predictions)
                (logit_doublet_score logit_predictions) num_cells
        = Some (Ok st) ->
      solo_scores st = scores ->
      exists ex,
        main fuel logit_predictions num_cells doublet_ratio (Some e)
        = Some (Raise ex)).
Proof.
  intros He.
  assert (Hpos : scores <> [] -> (0 < Z.of_nat (length scores))%Z).
  { intros Hs. destruct scores; [easy|]. cbn [length]. lia. }
  assert (Hne : scores <> [] ->
                (e < float_overflow_bound * Z.of_nat (length scores))%Z ->
                select_threshold scores (Some e) = Raise AssertionError).
  { intros Hs Hb. specialize (Hpos Hs). unfold select_threshold.
    rewrite int_truediv_in_range by lia.
    cbn [bind].
    replace (0 <? Z.of_nat (length scores) - e)%Z with false; [easy|].
    symmetry. apply Z.ltb_ge. lia. }
  assert (Hover : scores <> [] ->
                  (float_overflow_bound * Z.of_nat (length scores) <= e)%Z ->
                  select_threshold scores (Some e) = Raise OverflowError).
  { intros Hs Hb. specialize (Hpos Hs). unfold select_threshold.
    now rewrite int_truediv_overflow by lia. }
  assert (Hnil : scores = [] ->
                 select_threshold scores (Some e) = Raise ZeroDivisionError).
  { intros ->. reflexivity. }
  assert (Hraise : exists ex, select_threshold scores (Some e) = Raise ex).
  { destruct scores as [|x l] eqn:E.
    - eexists. now apply Hnil.
    - rewrite <- E in *. assert (Hs : scores <> []) by (rewrite E; easy).
      destruct (Z.lt_ge_cases e
                  (float_overflow_bound * Z.of_nat (length scores)))
        as [Hlt|Hge].
      + eexists. now apply Hne.
      + eexists. now apply Hover. }
  split; [exact Hne|]. split; [exact Hover|]. split; [exact Hnil|].
  split.
  - intros r Hr. destruct Hraise as [ex Hex]. congruence.
  - intros fuel lp nc ratio st Hcal Hst. destruct Hraise as [ex Hex].
    exists ex. unfold main. rewrite Hcal, Hst, Hex. reflexivity.
Qed.

Lemma expected_at_least_population_witness :
  select_threshold [Fin (1 / 4); Fin (3 / 4)] (Some 2%Z)
  = Raise AssertionError.
Proof.
  apply (expected_at_least_population [Fin (1 / 4); Fin (3 / 4)] 2%Z).
  - cbn. lia.
  - discriminate.
  - exact (within_population_in_range 2 2 ltac:(lia) ltac:(lia)).
Defined.

(** C10.  For a non-empty score array and an expected number of 0, [k] is
    the length of the array: the assertion [k > 0] passes, the index [k] is
    out of range for [np.argpartition], which raises, and threshold
    selection returns no calls. *)
Theorem zero_expected_out_of_range (scores : list float) :
  scores <> [] ->
  (0 <? Z.of_nat (length scores) - 0)%Z = true /\
  argpartition scores (Z.of_nat (length scores) - 0) = Raise ValueError /\
  select_threshold scores (Some 0%Z) = Raise ValueError.
Proof.
  intros Hne.
  assert (Hn : (0 < Z.of_nat (length scores))%Z).
  { destruct scores; [easy|]. cbn [length]. lia. }
  assert (Hk : (0 <? Z.of_nat (length scores) - 0)%Z = true)
    by (apply Z.ltb_lt; lia).
  assert (Hp : argpartition scores (Z.of_nat (length scores) - 0)
               = Raise ValueError).
  { unfold argpartition.
    replace (Z.of_nat (length scores) <=? Z.of_nat (length scores) - 0)%Z
      with true by (symmetry; apply Z.leb_le; lia).
    now rewrite orb_true_r. }
  repeat split; try assumption.
  unfold select_threshold.
  rewrite int_truediv_in_range
    by (try apply within_population_in_range; lia).
  cbn [bind]. rewrite Hk, Hp. reflexivity.
Qed.

Lemma zero_expected_out_of_range_witness :
  select_threshold [Fin (1 / 4); Fin (3 / 4)] (Some 0%Z) = Raise ValueError.
Proof.
  apply (zero_expected_out_of_range [Fin (1 / 4); Fin (3 / 4)]).
  discriminate.
Defined.

(** ** C9: the slices of the call array *)

Lemma calibrate_length
  (fuel : nat) (doublet_ratio : float)
  (doublet_score logit_doublet_score : list float) (num_cells : nat)
  (st : loop_state) :
  calibrate fuel doublet_ratio doublet_score logit_doublet_score num_cells
    = Some (Ok st) ->
  length (solo_scores st) = length (firstn num_cells logit_doublet_score).
Proof.
  unfold calibrate.
  destruct (target_prevalence doublet_ratio) as [d_s|ex]; [|discriminate].
  intros H. apply while_loop_sound in H. destruct H as [n [_ [Hi [Hf _]]]].
  destruct n as [|n].
  - cbn in Hi. injection Hi as <-. discriminate.
  - cbn [iterate] in Hi.
    destruct (iterate n d_s _ _) as [st_prev|ex]; [|discriminate].
    cbn [bind] in Hi. apply loop_body_Ok in Hi.
    destruct Hi as [c [_ [Hs _]]]. rewrite Hs. apply length_map.
Qed.

Lemma select_threshold_length
  (scores : list float) (expected : option Z) (r : bool * float * list bool) :
  select_threshold scores expected = Ok r ->
  length (snd r) = length scores.
Proof.
  unfold select_threshold. destruct expected as [e|].
  - destruct (int_truediv e _); [|discriminate]. cbn [bind].
    destruct (0 <? _)%Z; [|discriminate].
    destruct (argpartition scores _); [|discriminate]. cbn [bind].
    destruct (NP.max _); [|discriminate]. cbn [bind].
    intros H. injection H as <-. cbn. apply length_map.
  - intros H. injection H as <-. cbn. apply length_map.
Qed.

(** Whenever [main] writes its arrays, the call array has one entry per
    real cell and its slice from [num_cells] on is empty. *)
Lemma is_doublet_sim_always_empty
  (fuel : nat) (logit_predictions : list (float * float)) (num_cells : nat)
  (doublet_ratio : float) (expected : option Z) (out : outputs) :
  main fuel logit_predictions num_cells doublet_ratio expected
    = Some (Ok out) ->
  length (is_doublet out) = Nat.min num_cells (length logit_predictions) /\
  is_doublet_sim out = [].
Proof.
  unfold main.
  destruct (calibrate _ _ _ _ _) as [[st|ex]|] eqn:Hc; try discriminate.
  destruct (select_threshold _ _) as [r|ex] eqn:Hs; [|discriminate].
  cbn [bind]. intros H. injection H as <-. cbn [is_doublet is_doublet_sim].
  apply calibrate_length in Hc. apply select_threshold_length in Hs.
  rewrite length_firstn in Hc. unfold logit_doublet_score in Hc.
  rewrite length_map in Hc. split.
  - rewrite length_firstn. lia.
  - apply skipn_all2. lia.
Qed.

(** C9, evaluated on one real cell followed by one synthetic cell.  The
    softmax scores and the logits of the synthetic cell are written, but
    the call array has the single entry of the real cell and the slice
    written for the synthetic cells is empty. *)
Theorem calls_cover_real_cells_only :
  exists out,
    main 5 [(Fin 0, Fin 0); (Fin 0, Fin 0)] 1 (Fin 1) None = Some (Ok out) /\
    no_updates_softmax_scores_sim out = [Fin (1 / 2)] /\
    logit_scores_sim out = [Fin 0] /\
    is_doublet out = [false] /\
    is_doublet_sim out = [].
Proof.
  unfold main, doublet_score, logit_doublet_score, softmax. cbn [map snd fst].
  rewrite softmax_row_fin. cbn [fst].
  replace (0 - 0) with 0 by lra. rewrite sigmoid_0.
  rewrite (calibrate_fixed_point (1 / 2)) by (lra || lia || reflexivity).
  cbn [solo_scores select_threshold bind map snd].
  eexists. split; [reflexivity|].
  cbn [no_updates_softmax_scores_sim logit_scores_sim is_doublet
       is_doublet_sim skipn firstn].
  repeat split. unfold NP.gt. cbn [NP.lt]. now rewrite Rltb_ge by lra.
Qed.

(** * Further properties of the calibration loop *)

(** ** The observed means form a monotone sequence *)

Lemma logit_increasing (p q : R) :
  0 < p < 1 -> 0 < q < 1 -> p < q -> logit p < logit q.
Proof.
  intros Hp Hq Hpq. unfold logit. apply ln_increasing.
  - apply Rdiv_lt_0_compat; lra.
  - apply (Rmult_lt_reg_r ((1 - p) * (1 - q))); [nra|].
    replace (p / (1 - p) * ((1 - p) * (1 - q))) with (p * (1 - q))
      by (field; lra).
    replace (q / (1 - q) * ((1 - p) * (1 - q))) with (q * (1 - p))
      by (field; lra).
    nra.
Qed.

(** The bias of an iteration as a function of the observed mean. *)
Lemma bias_of_mean (d_s m : R) :
  0 < d_s < 1 -> 0 <= m <= 1 ->
  bias (Fin d_s) (Fin m) =
  Ok (if NP.Reqb m 0 then NInf
      else if NP.Reqb m 1 then PInf
      else Fin (logit m - logit d_s)).
Proof.
  intros Hs Hm. rewrite bias_fin by easy.
  destruct (Req_dec_T m 0) as [->|H0].
  - rewrite Reqb_eq by easy. now rewrite log_odds_zero.
  - rewrite (Reqb_neq m 0) by easy. destruct (Req_dec_T m 1) as [->|H1].
    + rewrite Reqb_eq by easy. now rewrite log_odds_one.
    + rewrite (Reqb_neq m 1) by easy. now rewrite log_odds_fin by lra.
Qed.

(** A larger observed mean gives every cell a score at least as large. *)
Lemma update_score_mono_mean (d_s m1 m2 : R) (c1 c2 l : float) :
  0 < d_s < 1 -> 0 <= m1 <= 1 -> 0 <= m2 <= 1 -> m1 <= m2 ->
  bias (Fin d_s) (Fin m1) = Ok c1 ->
  bias (Fin d_s) (Fin m2) = Ok c2 ->
  finite l ->
  exists x1 x2,
    update_score c1 l = Fin x1 /\ update_score c2 l = Fin x2 /\
    0 <= x1 <= x2 /\ x2 <= 1.
Proof.
  intros Hs H1 H2 Hle Hc1 Hc2 Hl.
  destruct l as [l| | |]; try discriminate.
  rewrite bias_of_mean in Hc1, Hc2 by easy.
  injection Hc1 as <-. injection Hc2 as <-.
  destruct (Req_dec_T m1 0) as [->|Ha].
  - rewrite (Reqb_eq 0 0) by easy. rewrite update_score_ninf.
    destruct (update_score_in_unit
                (if NP.Reqb m2 0 then NInf
                 else if NP.Reqb m2 1 then PInf
                 else Fin (logit m2 - logit d_s)) (Fin l))
      as [x2 [E2 Hx2]]; [|easy|].
    { destruct (NP.Reqb m2 0), (NP.Reqb m2 1); reflexivity. }
    exists 0, x2. rewrite E2. repeat split; try easy; lra.
  - rewrite (Reqb_neq m1 0) by easy.
    assert (Hb : m2 <> 0) by lra. rewrite (Reqb_neq m2 0) by easy.
    destruct (Req_dec_T m2 1) as [->|Hc].
    + rewrite (Reqb_eq 1 1) by easy. rewrite update_score_pinf.
      destruct (update_score_in_unit
                  (if NP.Reqb m1 1 then PInf
                   else Fin (logit m1 - logit d_s)) (Fin l))
        as [x1 [E1 Hx1]]; [|easy|].
      { destruct (NP.Reqb m1 1); reflexivity. }
      exists x1, 1. rewrite E1. repeat split; try easy; lra.
    + rewrite (Reqb_neq m2 1) by easy.
      assert (Hd : m1 <> 1) by lra. rewrite (Reqb_neq m1 1) by easy.
      rewrite !update_score_fin.
      exists (sigmoid (l + (logit m1 - logit d_s))),
             (sigmoid (l + (logit m2 - logit d_s))).
      pose proof (sigmoid_range (l + (logit m1 - logit d_s))).
      pose proof (sigmoid_range (l + (logit m2 - logit d_s))).
      repeat split; try easy; try lra.
      destruct (Req_dec_T m1 m2) as [->|Hne]; [lra|].
      apply Rlt_le, sigmoid_increasing.
      assert (logit m1 < logit m2) by (apply logit_increasing; lra). lra.
Qed.

Lemma sum_map_le (f g : float -> float) (ls : list float) :
  Forall (fun l => exists x y, f l = Fin x /\ g l = Fin y /\ x <= y) ls ->
  exists X Y, NP.sum (map f ls) = Fin X /\ NP.sum (map g ls) = Fin Y /\
              X <= Y.
Proof.
  induction 1 as [|l ls [x [y [Hf [Hg Hxy]]]] _ [X [Y [HX [HY HXY]]]]].
  - exists 0, 0. repeat split; lra.
  - exists (x + X), (y + Y). unfold NP.sum in *. cbn [map fold_right].
    rewrite Hf, Hg, HX, HY. repeat split. lra.
Qed.

Lemma mean_map_le (f g : float -> float) (ls : list float) :
  ls <> [] ->
  Forall (fun l => exists x y, f l = Fin x /\ g l = Fin y /\ x <= y) ls ->
  exists X Y, NP.mean (map f ls) = Fin X /\ NP.mean (map g ls) = Fin Y /\
              X <= Y.
Proof.
  intros Hne H. destruct (sum_map_le f g ls H) as [X [Y [HX [HY HXY]]]].
  pose proof (INR_length_pos ls Hne) as Hn.
  exists (X / INR (length ls)), (Y / INR (length ls)).
  unfold NP.mean. rewrite !length_map, HX, HY, !div_fin by lra.
  repeat split. apply Rmult_le_compat_r; [|easy].
  apply Rlt_le, Rinv_0_lt_compat, Hn.
Qed.

(** One iteration is monotone in the observed mean. *)
Lemma loop_body_mono (d_s : R) (ls : list float) (st1 st2 : loop_state)
  (m1 m2 : R) :
  0 < d_s < 1 -> Forall finite ls -> ls <> [] ->
  NP.mean (solo_scores st1) = Fin m1 -> 0 <= m1 <= 1 ->
  NP.mean (solo_scores st2) = Fin m2 -> 0 <= m2 <= 1 ->
  m1 <= m2 ->
  exists st1' st2' M1 M2,
    loop_body (Fin d_s) ls st1 = Ok st1' /\
    loop_body (Fin d_s) ls st2 = Ok st2' /\
    NP.mean (solo_scores st1') = Fin M1 /\
    NP.mean (solo_scores st2') = Fin M2 /\
    M1 <= M2.
Proof.
  intros Hs Hfin Hne E1 H1 E2 H2 Hle. unfold loop_body.
  rewrite E1, E2.
  destruct (bias (Fin d_s) (Fin m1)) as [c1|] eqn:Hc1;
    [|rewrite bias_fin in Hc1 by easy; discriminate].
  destruct (bias (Fin d_s) (Fin m2)) as [c2|] eqn:Hc2;
    [|rewrite bias_fin in Hc2 by easy; discriminate].
  cbn [bind].
  destruct (mean_map_le (update_score c1) (update_score c2) ls Hne)
    as [M1 [M2 [HM1 [HM2 HM]]]].
  { eapply Forall_impl; [|exact Hfin]. intros l Hl.
    destruct (update_score_mono_mean d_s m1 m2 c1 c2 l Hs H1 H2 Hle Hc1 Hc2 Hl)
      as [x1 [x2 [Hx1 [Hx2 Hx]]]].
    exists x1, x2. repeat split; try easy; lra. }
  do 2 eexists. exists M1, M2.
  split; [reflexivity|]. split; [reflexivity|]. cbn [solo_scores]. easy.
Qed.

Section MeanSequence.
Variable d_s : R.
Variable ls : list float.
Variable st0 : loop_state.
Hypothesis Hs : 0 < d_s < 1.
Hypothesis Hfin : Forall finite ls.
Hypothesis Hne : ls <> [].
Hypothesis Hu : Forall in_unit (solo_scores st0).
Hypothesis Hlen : length (solo_scores st0) = length ls.

Lemma state_after_spec (n : nat) :
  iterate n (Fin d_s) ls st0 = Ok (state_after n (Fin d_s) ls st0) /\
  Forall in_unit (solo_scores (state_after n (Fin d_s) ls st0)) /\
  length (solo_scores (state_after n (Fin d_s) ls st0)) = length ls.
Proof.
  destruct (iterate_in_unit d_s ls st0 Hs Hfin Hu Hlen n) as [st [Hi H]].
  unfold state_after. rewrite Hi. easy.
Qed.

Lemma state_after_S (n : nat) :
  loop_body (Fin d_s) ls (state_after n (Fin d_s) ls st0)
  = Ok (state_after (S n) (Fin d_s) ls st0).
Proof.
  destruct (state_after_spec n) as [Hn _].
  destruct (state_after_spec (S n)) as [HS _].
  cbn [iterate] in HS. rewrite Hn in HS. exact HS.
Qed.

Lemma observed_mean_spec (n : nat) :
  NP.mean (solo_scores (state_after n (Fin d_s) ls st0))
  = Fin (observed_mean n (Fin d_s) ls st0) /\
  0 <= observed_mean n (Fin d_s) ls st0 <= 1.
Proof.
  destruct (state_after_spec n) as [_ [Hun Hln]].
  assert (Hnil : solo_scores (state_after n (Fin d_s) ls st0) <> []).
  { intros E. rewrite E in Hln. destruct ls; [easy|discriminate]. }
  destruct (mean_in_unit _ Hnil Hun) as [m [Hm Hr]].
  unfold observed_mean. rewrite Hm. easy.
Qed.

Lemma observed_mean_step (n m : nat) :
  observed_mean n (Fin d_s) ls st0 <= observed_mean m (Fin d_s) ls st0 ->
  observed_mean (S n) (Fin d_s) ls st0
  <= observed_mean (S m) (Fin d_s) ls st0.
Proof.
  intros Hle.
  destruct (observed_mean_spec n) as [En Hn].
  destruct (observed_mean_spec m) as [Em Hm].
  destruct (loop_body_mono d_s ls _ _ _ _ Hs Hfin Hne En Hn Em Hm Hle)
    as [s1 [s2 [M1 [M2 [Hb1 [Hb2 [E1 [E2 HM]]]]]]]].
  rewrite state_after_S in Hb1, Hb2.
  injection Hb1 as <-. injection Hb2 as <-.
  destruct (observed_mean_spec (S n)) as [En' _].
  destruct (observed_mean_spec (S m)) as [Em' _].
  rewrite En' in E1. rewrite Em' in E2.
  injection E1 as ->. injection E2 as ->. exact HM.
Qed.

(** The means either never decrease or never increase. *)
Lemma observed_mean_monotone :
  (forall n, observed_mean n (Fin d_s) ls st0
             <= observed_mean (S n) (Fin d_s) ls st0) \/
  (forall n, observed_mean (S n) (Fin d_s) ls st0
             <= observed_mean n (Fin d_s) ls st0).
Proof.
  destruct (Rle_or_lt (observed_mean 0 (Fin d_s) ls st0)
                      (observed_mean 1 (Fin d_s) ls st0)) as [H|H].
  - left. induction n as [|n IH]; [exact H|].
    now apply observed_mean_step.
  - right. induction n as [|n IH]; [lra|].
    now apply observed_mean_step.
Qed.

Lemma diff_state_after (n : nat) :
  diff (state_after (S n) (Fin d_s) ls st0)
  = Fin (Rabs (observed_mean n (Fin d_s) ls st0
               - observed_mean (S n) (Fin d_s) ls st0)).
Proof.
  pose proof (state_after_S n) as Hb. apply loop_body_Ok in Hb.
  destruct Hb as [c [_ [_ [_ Hd]]]]. rewrite Hd.
  destruct (observed_mean_spec n) as [-> _].
  destruct (observed_mean_spec (S n)) as [-> _].
  reflexivity.
Qed.

Lemma counter_state_after (n : nat) :
  counter_update (state_after n (Fin d_s) ls st0)
  = (n + counter_update st0)%nat.
Proof.
  destruct (state_after_spec n) as [Hi _]. now apply iterate_counter in Hi.
Qed.

End MeanSequence.

(** ** A bound on the number of iterations *)

(** A monotone sequence that moves by more than [delta] at each of [N]
    consecutive steps moves by more than [N * delta] in all. *)
Lemma monotone_gap (u : nat -> R) (delta : R) (a N : nat) :
  (forall n, u n <= u (S n)) \/ (forall n, u (S n) <= u n) ->
  (forall j, (a <= j < a + S N)%nat -> delta < Rabs (u j - u (S j))) ->
  INR (S N) * delta < Rabs (u a - u (a + S N)%nat).
Proof.
  intros Hmono Hgap.
  assert (Hsum : forall sgn : R, (sgn = 1 \/ sgn = -1) ->
            (forall n, sgn * u n <= sgn * u (S n)) ->
            INR (S N) * delta < sgn * u (a + S N)%nat - sgn * u a).
  { intros sgn Hsgn Hinc.
    assert (Hstep : forall j, (a <= j < a + S N)%nat ->
                      delta < sgn * u (S j) - sgn * u j).
    { intros j Hj. specialize (Hgap j Hj). specialize (Hinc j).
      destruct Hsgn as [-> | ->];
        unfold Rabs in Hgap; destruct (Rcase_abs (u j - u (S j))); lra. }
    clear Hgap. induction N as [|N IH].
    - replace (a + 1)%nat with (S a) by lia.
      specialize (Hstep a ltac:(lia)). cbn [INR]. lra.
    - replace (a + S (S N))%nat with (S (a + S N)) by lia.
      assert (IH' : INR (S N) * delta < sgn * u (a + S N)%nat - sgn * u a).
      { apply IH. intros j Hj. apply Hstep. lia. }
      specialize (Hstep (a + S N)%nat ltac:(lia)).
      rewrite (S_INR (S N)). lra. }
  destruct Hmono as [Hinc|Hdec].
  - specialize (Hsum 1 (or_introl eq_refl)).
    assert (H : INR (S N) * delta < 1 * u (a + S N)%nat - 1 * u a).
    { apply Hsum. intros n. specialize (Hinc n). lra. }
    unfold Rabs. destruct (Rcase_abs (u a - u (a + S N)%nat)); lra.
  - specialize (Hsum (-1) (or_intror eq_refl)).
    assert (H : INR (S N) * delta < -1 * u (a + S N)%nat - -1 * u a).
    { apply Hsum. intros n. specialize (Hdec n). lra. }
    unfold Rabs. destruct (Rcase_abs (u a - u (a + S N)%nat)); lra.
Qed.

(** The first index of a range at which a test fails, if there is one. *)
Lemma first_failure (P : nat -> bool) (a N : nat) :
  (forall j, (a <= j < a + N)%nat -> P j = true) \/
  exists n, (a <= n < a + N)%nat /\ P n = false /\
            forall j, (a <= j < n)%nat -> P j = true.
Proof.
  induction N as [|N [IH|[n [Hn [Hf Hb]]]]].
  - left. intros j Hj. lia.
  - destruct (P (a + N)%nat) eqn:E.
    + left. intros j Hj.
      destruct (Nat.eq_dec j (a + N)) as [->|Hne]; [easy|]. apply IH. lia.
    + right. exists (a + N)%nat. repeat split; [lia|lia|easy|].
      intros j Hj. apply IH. lia.
  - right. exists n. repeat split; try easy; lia.
Qed.

Lemma mean_nil : NP.mean [] = NaN.
Proof. unfold NP.mean. cbn. now rewrite !Reqb_eq. Qed.

Lemma sub_nan (a : float) : NP.sub a NaN = NaN.
Proof. now destruct a. Qed.

Lemma exit_after_five (d_s : float) (ls : list float) (st0 st5 : loop_state) :
  counter_update st0 = O ->
  iterate 5 d_s ls st0 = Ok st5 ->
  NP.gt (diff st5) (Fin (1 / 100)) = false ->
  forall fuel, (5 <= fuel)%nat -> while_loop fuel d_s ls st0 = Some (Ok st5).
Proof.
  intros H0 Hi Hd fuel Hfuel. apply (while_loop_complete 5); try easy.
  - rewrite loop_cond_late; [easy|].
    apply iterate_counter in Hi. lia.
  - intros m st_m Hm Him. apply loop_cond_early.
    apply iterate_counter in Him. lia.
Qed.

(** Without cells the means are [nan] and the loop stops after the five
    compulsory iterations. *)
Lemma loop_body_empty (d_s : float) (st : loop_state) :
  (exists t, log_odds_target d_s = Ok t) ->
  loop_body d_s [] st =
  Ok {| diff := NaN; counter_update := S (counter_update st);
        solo_scores := [] |}.
Proof.
  intros [t Ht]. unfold loop_body, bias. rewrite Ht. cbn [bind map].
  now rewrite mean_nil, sub_nan.
Qed.

Lemma iterate_empty (d_s : float) (st : loop_state) :
  (exists t, log_odds_target d_s = Ok t) ->
  forall n, iterate (S n) d_s [] st =
  Ok {| diff := NaN; counter_update := S (n + counter_update st);
        solo_scores := [] |}.
Proof.
  intros Ht. induction n as [|n IH].
  - cbn [iterate bind]. now apply loop_body_empty.
  - change (iterate (S (S n)) d_s [] st)
      with (st' <- iterate (S n) d_s [] st ;; loop_body d_s [] st').
    rewrite IH. cbn [bind]. now rewrite loop_body_empty.
Qed.

Lemma while_loop_bounded (d_s : R) (ls : list float) (st0 : loop_state) :
  0 < d_s < 1 ->
  Forall finite ls ->
  Forall in_unit (solo_scores st0) ->
  length (solo_scores st0) = length ls ->
  counter_update st0 = O ->
  forall fuel, (104 <= fuel)%nat ->
  exists st, while_loop fuel (Fin d_s) ls st0 = Some (Ok st) /\
             (5 <= counter_update st <= 104)%nat.
Proof.
  intros Hs Hfin Hu Hlen H0 fuel Hfuel.
  destruct ls as [|l0 ls'] eqn:Els.
  - assert (Ht : exists t, log_odds_target (Fin d_s) = Ok t)
      by (rewrite log_odds_target_fin by easy; eauto).
    pose proof (iterate_empty (Fin d_s) st0 Ht 4) as Hi.
    eexists. split.
    + apply (exit_after_five _ _ _ _ H0 Hi); [reflexivity|lia].
    + cbn [counter_update]. lia.
  - rewrite <- Els in *.
    assert (Hne : ls <> []) by (rewrite Els; discriminate).
    clear Els l0 ls'.
    set (P := fun j => loop_cond (state_after j (Fin d_s) ls st0)).
    assert (Hcnt : forall j,
              counter_update (state_after j (Fin d_s) ls st0) = j).
    { intros j. rewrite (counter_state_after d_s ls st0 Hs Hfin Hu Hlen).
      lia. }
    destruct (first_failure P 5 100) as [Hall|[n [Hn [Hf Hb]]]].
    + exfalso.
      pose proof (monotone_gap
                    (fun j => observed_mean j (Fin d_s) ls st0)
                    (1 / 100) 4 99
                    (observed_mean_monotone d_s ls st0 Hs Hfin Hne Hu Hlen))
        as Hgap.
      cbv beta in Hgap.
      assert (Hsteps : forall j, (4 <= j < 4 + 100)%nat ->
                1 / 100 < Rabs (observed_mean j (Fin d_s) ls st0
                                - observed_mean (S j) (Fin d_s) ls st0)).
      { intros j Hj. specialize (Hall (S j) ltac:(lia)). unfold P in Hall.
        rewrite loop_cond_late in Hall by (rewrite Hcnt; lia).
        rewrite (diff_state_after d_s ls st0 Hs Hfin Hne Hu Hlen) in Hall.
        now apply gt_fin in Hall. }
      specialize (Hgap Hsteps).
      rewrite INR_IZR_INZ in Hgap.
      change (Z.of_nat 100) with 100%Z in Hgap.
      destruct (observed_mean_spec d_s ls st0 Hs Hfin Hne Hu Hlen 4)
        as [_ H4].
      destruct (observed_mean_spec d_s ls st0 Hs Hfin Hne Hu Hlen (4 + 100))
        as [_ H104].
      unfold Rabs in Hgap.
      destruct (Rcase_abs _) in Hgap; lra.
    + exists (state_after n (Fin d_s) ls st0). split; [|rewrite Hcnt; lia].
      destruct (state_after_spec d_s ls st0 Hs Hfin Hu Hlen n) as [Hi _].
      apply (while_loop_complete n); [exact Hi|exact Hf| |lia].
      intros m st_m Hm Him.
      destruct (state_after_spec d_s ls st0 Hs Hfin Hu Hlen m) as [Hi' _].
      rewrite Hi' in Him. injection Him as <-.
      destruct (Nat.lt_ge_cases m 5) as [Hlt|Hge].
      * apply loop_cond_early. rewrite Hcnt. exact Hlt.
      * apply Hb. lia.
Qed.

(** The calibration loop terminates: for a positive doublet ratio, finite
    logits and initial scores in [0, 1] it returns after at least 5 and at
    most 104 iterations. *)
Theorem calibration_terminates
  (doublet_ratio : R) (doublet_score logit_doublet_score : list float)
  (num_cells fuel : nat) :
  0 < doublet_ratio ->
  length doublet_score = length logit_doublet_score ->
  Forall in_unit doublet_score ->
  Forall finite logit_doublet_score ->
  (104 <= fuel)%nat ->
  exists st,
    calibrate fuel (Fin doublet_ratio) doublet_score logit_doublet_score
              num_cells = Some (Ok st) /\
    (5 <= counter_update st <= 104)%nat.
Proof.
  intros Hr Hlen Hu Hfin Hfuel. unfold calibrate.
  destruct (target_prevalence_pos doublet_ratio Hr) as [-> Hrange].
  apply while_loop_bounded; try easy.
  - now apply Forall_firstn.
  - cbn. now apply Forall_firstn.
  - cbn. rewrite !length_firstn. lia.
Qed.

Lemma calibration_terminates_witness :
  exists st,
    calibrate 104 (Fin 2) [Fin (1 / 4); Fin (3 / 4)] [Fin 0; Fin 3] 2
      = Some (Ok st) /\
    (5 <= counter_update st <= 104)%nat.
Proof.
  apply (calibration_terminates 2 [Fin (1 / 4); Fin (3 / 4)]
           [Fin 0; Fin 3] 2 104).
  - lra.
  - reflexivity.
  - repeat constructor.
    + exists (1 / 4). split; [reflexivity|lra].
    + exists (3 / 4). split; [reflexivity|lra].
  - repeat constructor.
  - lia.
Defined.



(** Every score the loop returns is the sigmoid of the cell's own logit
    shifted by one bias common to all cells: cells with equal logits get
    equal scores, whatever their initial scores were. *)
Theorem returned_scores_share_one_bias
  (fuel : nat) (doublet_ratio : float)
  (doublet_score logit_doublet_score : list float) (num_cells : nat)
  (st : loop_state) :
  calibrate fuel doublet_ratio doublet_score logit_doublet_score num_cells
    = Some (Ok st) ->
  exists c,
    solo_scores st
    = map (update_score c) (firstn num_cells logit_doublet_score) /\
    forall i j,
      nth i (firstn num_cells logit_doublet_score) NaN
      = nth j (firstn num_cells logit_doublet_score) NaN ->
      (i < length (firstn num_cells logit_doublet_score))%nat ->
      (j < length (firstn num_cells logit_doublet_score))%nat ->
      nth i (solo_scores st) NaN = nth j (solo_scores st) NaN.
Proof.
  unfold calibrate.
  destruct (target_prevalence doublet_ratio) as [d_s|ex]; [|discriminate].
  intros H. apply while_loop_sound in H. destruct H as [n [_ [Hi [Hf _]]]].
  destruct n as [|n]; [cbn in Hi; injection Hi as <-; discriminate|].
  cbn [iterate] in Hi.
  destruct (iterate n d_s _ _) as [st_prev|ex]; [|discriminate].
  cbn [bind] in Hi. apply loop_body_Ok in Hi.
  destruct Hi as [c [_ [Hs _]]]. exists c. split; [exact Hs|].
  intros i j Heq Hi Hj. rewrite Hs.
  rewrite (nth_indep _ NaN (update_score c NaN)) by now rewrite length_map.
  rewrite (nth_indep _ NaN (update_score c NaN) (n := j))
    by now rewrite length_map.
  now rewrite !map_nth, Heq.
Qed.

Lemma returned_scores_share_one_bias_witness :
  exists c,
    [Fin (1 / 4)] = map (update_score c) (firstn 1 [Fin 0]) /\
    forall i j,
      nth i (firstn 1 [Fin 0]) NaN = nth j (firstn 1 [Fin 0]) NaN ->
      (i < length (firstn 1 [Fin 0]))%nat ->
      (j < length (firstn 1 [Fin 0]))%nat ->
      nth i [Fin (1 / 4)] NaN = nth j [Fin (1 / 4)] NaN.
Proof.
  apply (returned_scores_share_one_bias 5 (Fin 1) [Fin (1 / 4)] [Fin 0] 1
           {| diff := Fin 0; counter_update := 5;
              solo_scores := [Fin (1 / 4)] |}).
  apply (calibrate_fixed_point (1 / 4)); [lra|lia|easy|easy].
Defined.

(** ** Runs that reach a fixed array of scores *)

(** When the first iteration reaches scores that every further iteration
    reproduces, the loop returns them after the five compulsory
    iterations. *)
Lemma run_to_fixed_scores
  (d_s : float) (ls s : list float) (delta : float) (st0 st1 : loop_state) :
  (forall st, solo_scores st = s ->
     loop_body d_s ls st =
     Ok {| diff := delta; counter_update := S (counter_update st);
           solo_scores := s |}) ->
  loop_body d_s ls st0 = Ok st1 ->
  solo_scores st1 = s ->
  counter_update st0 = O ->
  NP.gt delta (Fin (1 / 100)) = false ->
  forall fuel, (5 <= fuel)%nat ->
  while_loop fuel d_s ls st0 =
  Some (Ok {| diff := delta; counter_update := 5; solo_scores := s |}).
Proof.
  intros Hfix Hb Hs H0 Hd fuel Hfuel.
  assert (Hit : forall n, iterate (S (S n)) d_s ls st0 =
            Ok {| diff := delta; counter_update := S (S n);
                  solo_scores := s |}).
  { induction n as [|n IH].
    - cbn [iterate bind]. rewrite Hb. cbn [bind]. rewrite (Hfix st1 Hs).
      apply loop_body_Ok in Hb. destruct Hb as [c [_ [_ [Hc _]]]].
      rewrite Hc, H0. reflexivity.
    - change (iterate (S (S (S n))) d_s ls st0)
        with (st' <- iterate (S (S n)) d_s ls st0 ;; loop_body d_s ls st').
      rewrite IH. cbn [bind]. now rewrite Hfix. }
  apply (exit_after_five d_s ls st0 _ H0 (Hit 3%nat)); easy.
Qed.

(** ** Values that are not probabilities *)

Lemma add_nan_r (a : float) : NP.add a NaN = NaN.
Proof. now destruct a. Qed.

Lemma update_score_nan (l : float) : update_score NaN l = NaN.
Proof. unfold update_score. now rewrite add_nan_r. Qed.

Lemma sum_nan (l : list float) : In NaN l -> NP.sum l = NaN.
Proof.
  unfold NP.sum. induction l as [|a l IH]; [easy|]. intros [->|H].
  - reflexivity.
  - cbn [fold_right]. rewrite IH by easy. apply add_nan_r.
Qed.

Lemma mean_nan (l : list float) : In NaN l -> NP.mean l = NaN.
Proof. intros H. unfold NP.mean. now rewrite sum_nan. Qed.

Lemma mean_repeat_nan (n : nat) : NP.mean (repeat NaN n) = NaN.
Proof.
  destruct n as [|n]; [apply mean_nil|]. apply mean_nan. now left.
Qed.

Lemma map_const {A B : Type} (b : B) (l : list A) :
  map (fun _ => b) l = repeat b (length l).
Proof. induction l as [|a l IH]; cbn; [reflexivity|]. now rewrite IH. Qed.

Lemma map_update_score_nan (ls : list float) :
  map (update_score NaN) ls = repeat NaN (length ls).
Proof.
  rewrite <- map_const. apply map_ext. apply update_score_nan.
Qed.

Lemma bias_nan_mean (d_s : float) :
  (exists t, log_odds_target d_s = Ok t) -> bias d_s NaN = Ok NaN.
Proof. intros [t Ht]. unfold bias. rewrite Ht. reflexivity. Qed.

(** A [nan] bias turns every score into [nan], and [nan] scores give a
    [nan] bias again. *)
Lemma while_loop_nan (d_s : float) (ls : list float) (st0 : loop_state) :
  (exists t, log_odds_target d_s = Ok t) ->
  bias d_s (NP.mean (solo_scores st0)) = Ok NaN ->
  counter_update st0 = O ->
  forall fuel, (5 <= fuel)%nat ->
  while_loop fuel d_s ls st0 =
  Some (Ok {| diff := NaN; counter_update := 5;
              solo_scores := repeat NaN (length ls) |}).
Proof.
  intros Ht Hb H0 fuel Hfuel.
  assert (Hstep : forall st,
            bias d_s (NP.mean (solo_scores st)) = Ok NaN ->
            loop_body d_s ls st =
            Ok {| diff := NaN; counter_update := S (counter_update st);
                  solo_scores := repeat NaN (length ls) |}).
  { intros st H. unfold loop_body. rewrite H. cbn [bind].
    now rewrite map_update_score_nan, mean_repeat_nan, sub_nan. }
  eapply run_to_fixed_scores; try eassumption.
  - intros st Hs. apply Hstep. rewrite Hs, mean_repeat_nan.
    now apply bias_nan_mean.
  - now apply Hstep.
  - reflexivity.
  - reflexivity.
Qed.

Lemma log_odds_target_outside (d_s : R) :
  d_s < 0 \/ 1 < d_s -> log_odds_target (Fin d_s) = Ok NaN.
Proof.
  intros H. unfold log_odds_target. cbn [NP.sub NP.neg NP.add].
  rewrite pydiv_fin by lra. cbn [bind].
  pose proof (log_odds_outside d_s H) as Hl. unfold log_odds in Hl.
  cbn [NP.sub NP.neg NP.add] in Hl. rewrite div_fin in Hl by lra.
  now rewrite Hl.
Qed.

Lemma target_prevalence_negative (doublet_ratio : R) :
  doublet_ratio < 0 -> doublet_ratio <> -1 ->
  target_prevalence (Fin doublet_ratio)
    = Ok (Fin (doublet_ratio / (doublet_ratio + 1))) /\
  (doublet_ratio / (doublet_ratio + 1) < 0 \/
   1 < doublet_ratio / (doublet_ratio + 1)).
Proof.
  intros Hneg Hne. split.
  - unfold target_prevalence. cbn [NP.add]. apply pydiv_fin. lra.
  - destruct (Rlt_dec (-1) doublet_ratio) as [H|H].
    + left.
      replace (doublet_ratio / (doublet_ratio + 1))
        with (- ((- doublet_ratio) * / (doublet_ratio + 1))) by (field; lra).
      assert (0 < - doublet_ratio * / (doublet_ratio + 1)); [|lra].
      apply Rmult_lt_0_compat; [lra|]. apply Rinv_0_lt_compat. lra.
    + right.
      replace (doublet_ratio / (doublet_ratio + 1))
        with (1 + / (- (doublet_ratio + 1))) by (field; lra).
      assert (0 < / (- (doublet_ratio + 1))); [|lra].
      apply Rinv_0_lt_compat. lra.
Qed.

Lemma target_prevalence_between (doublet_ratio : R) :
  -1 < doublet_ratio < 0 ->
  target_prevalence (Fin doublet_ratio)
    = Ok (Fin (doublet_ratio / (doublet_ratio + 1))) /\
  doublet_ratio / (doublet_ratio + 1) < 0.
Proof.
  intros H.
  destruct (target_prevalence_negative doublet_ratio) as [Ht [Hd|Hd]];
    try lra; [easy|].
  exfalso.
  assert (Hpos : 0 < / (doublet_ratio + 1))
    by (apply Rinv_0_lt_compat; lra).
  assert (doublet_ratio * / (doublet_ratio + 1) < 0); [|unfold Rdiv in Hd; lra].
  replace (doublet_ratio * / (doublet_ratio + 1))
    with (- ((- doublet_ratio) * / (doublet_ratio + 1))) by ring.
  assert (0 < - doublet_ratio * / (doublet_ratio + 1)); [|lra].
  apply Rmult_lt_0_compat; lra.
Qed.

(** A target prevalence below 0 or above 1, as a doublet ratio between -1
    and 0 gives, is not rejected: the log-odds of the target are [nan],
    the loop stops after five iterations and every returned score is
    [nan], whatever the scores and the logits. *)
Theorem target_outside_unit_gives_nan_scores
  (d_s doublet_ratio : R) (doublet_score logit_doublet_score : list float)
  (num_cells fuel : nat) :
  (5 <= fuel)%nat ->
  (d_s < 0 \/ 1 < d_s ->
   while_loop fuel (Fin d_s) (firstn num_cells logit_doublet_score)
              (initial_state (firstn num_cells doublet_score)) =
   Some (Ok {| diff := NaN; counter_update := 5;
               solo_scores :=
                 repeat NaN
                   (length (firstn num_cells logit_doublet_score)) |})) /\
  (-1 < doublet_ratio < 0 ->
   calibrate fuel (Fin doublet_ratio) doublet_score logit_doublet_score
             num_cells =
   Some (Ok {| diff := NaN; counter_update := 5;
               solo_scores :=
                 repeat NaN
                   (length (firstn num_cells logit_doublet_score)) |})).
Proof.
  intros Hfuel.
  assert (Hloop : forall d : R, d < 0 \/ 1 < d ->
    while_loop fuel (Fin d) (firstn num_cells logit_doublet_score)
               (initial_state (firstn num_cells doublet_score)) =
    Some (Ok {| diff := NaN; counter_update := 5;
                solo_scores :=
                  repeat NaN
                    (length (firstn num_cells logit_doublet_score)) |})).
  { intros d Hout. pose proof (log_odds_target_outside _ Hout) as Ht.
    apply while_loop_nan; try easy; [eauto|].
    unfold bias. rewrite Ht. cbn [bind]. now rewrite sub_nan. }
  split; [apply Hloop|].
  intros Hr. unfold calibrate.
  destruct (target_prevalence_between doublet_ratio Hr) as [-> Hneg].
  apply Hloop. now left.
Qed.

Lemma target_outside_unit_gives_nan_scores_witness :
  calibrate 5 (Fin (- (1 / 2))) [Fin (1 / 4); Fin (3 / 4)] [Fin 0; Fin 3] 2 =
  Some (Ok {| diff := NaN; counter_update := 5;
              solo_scores :=
                repeat NaN (length (firstn 2 [Fin 0; Fin 3])) |}).
Proof.
  apply (target_outside_unit_gives_nan_scores (-1) (- (1 / 2))
           [Fin (1 / 4); Fin (3 / 4)] [Fin 0; Fin 3] 2 5); [lia|lra].
Defined.

(** ** Saturated scores *)

Lemma map_update_score_saturated (c : float) (v : R) (ls : list float) :
  (c = PInf /\ v = 1) \/ (c = NInf /\ v = 0) ->
  Forall finite ls ->
  map (update_score c) ls = repeat (Fin v) (length ls).
Proof.
  intros Hc Hfin. rewrite <- map_const. apply map_ext_in.
  intros l Hl. rewrite Forall_forall in Hfin. specialize (Hfin l Hl).
  destruct l as [l| | |]; try discriminate.
  destruct Hc as [[-> ->]|[-> ->]].
  - apply update_score_pinf.
  - apply update_score_ninf.
Qed.

(** An infinite bias sends every score to the same end of the interval,
    where the bias is infinite again. *)
Lemma while_loop_saturates
  (d_s c : float) (v : R) (ls : list float) (st0 : loop_state) :
  (c = PInf /\ v = 1) \/ (c = NInf /\ v = 0) ->
  Forall finite ls -> ls <> [] ->
  bias d_s (Fin v) = Ok c ->
  bias d_s (NP.mean (solo_scores st0)) = Ok c ->
  counter_update st0 = O ->
  forall fuel, (5 <= fuel)%nat ->
  exists delta,
    while_loop fuel d_s ls st0 =
    Some (Ok {| diff := Fin 0; counter_update := 5;
                solo_scores := repeat (Fin v) (length ls) |}) /\
    iterate 1 d_s ls st0 =
    Ok {| diff := delta; counter_update := 1;
          solo_scores := repeat (Fin v) (length ls) |}.
Proof.
  intros Hc Hfin Hne Hbv Hb0 H0 fuel Hfuel.
  assert (Hmean : NP.mean (repeat (Fin v) (length ls)) = Fin v).
  { destruct ls as [|l ls']; [easy|]. apply mean_const. }
  eexists. split.
  - eapply run_to_fixed_scores with (st1 :=
      {| diff := NP.abs (NP.sub (NP.mean (solo_scores st0)) (Fin v));
         counter_update := S (counter_update st0);
         solo_scores := repeat (Fin v) (length ls) |}); try easy.
    + intros st Hs. unfold loop_body. rewrite Hs, Hmean, Hbv. cbn [bind].
      rewrite (map_update_score_saturated c v ls Hc Hfin), Hmean.
      cbn [NP.sub NP.neg NP.add NP.abs].
      replace (v + - v) with 0 by lra. now rewrite Rabs_R0.
    + unfold loop_body. rewrite Hb0. cbn [bind].
      now rewrite (map_update_score_saturated c v ls Hc Hfin), Hmean.
    + unfold NP.gt. cbn [NP.lt]. apply Rltb_ge. lra.
  - cbn [iterate bind]. unfold loop_body. rewrite Hb0. cbn [bind].
    rewrite (map_update_score_saturated c v ls Hc Hfin), Hmean, H0.
    reflexivity.
Qed.

Lemma mean_fin_nonempty (l : list float) (m : R) :
  NP.mean l = Fin m -> l <> [].
Proof. intros H ->. rewrite mean_nil in H. discriminate. Qed.

Lemma firstn_nonempty_both {A B : Type} (n : nat) (l : list A) (l' : list B) :
  length l = length l' -> firstn n l <> [] -> firstn n l' <> [].
Proof.
  intros Hlen H E. apply H. apply length_zero_iff_nil.
  apply (f_equal (@length B)) in E. rewrite length_firstn in *.
  cbn in E. lia.
Qed.



(** A doublet ratio of 0 is not rejected: the log-odds of the target are
    [-inf], the bias is [+inf], and every returned score is 1, for finite
    logits and initial scores whose mean lies in (0, 1]. *)
Theorem zero_ratio_gives_unit_scores
  (m : R) (doublet_score logit_doublet_score : list float)
  (num_cells fuel : nat) :
  length doublet_score = length logit_doublet_score ->
  Forall finite logit_doublet_score ->
  NP.mean (firstn num_cells doublet_score) = Fin m ->
  0 < m <= 1 ->
  (5 <= fuel)%nat ->
  calibrate fuel (Fin 0) doublet_score logit_doublet_score num_cells =
  Some (Ok {| diff := Fin 0; counter_update := 5;
              solo_scores :=
                repeat (Fin 1)
                  (length (firstn num_cells logit_doublet_score)) |}).
Proof.
  intros Hlen Hfin Hmean Hm Hfuel. unfold calibrate.
  assert (Hd : target_prevalence (Fin 0) = Ok (Fin 0)).
  { unfold target_prevalence. cbn [NP.add]. rewrite pydiv_fin by lra.
    do 2 f_equal. lra. }
  rewrite Hd.
  assert (Ht : log_odds_target (Fin 0) = Ok NInf).
  { unfold log_odds_target. cbn [NP.sub NP.neg NP.add].
    rewrite pydiv_fin by lra. cbn [bind].
    replace (0 / (1 + - 0)) with 0 by lra. now rewrite log_zero. }
  assert (Hne : firstn num_cells logit_doublet_score <> []).
  { apply (firstn_nonempty_both _ doublet_score); [easy|].
    now apply (mean_fin_nonempty _ m). }
  destruct (while_loop_saturates (Fin 0) PInf 1
              (firstn num_cells logit_doublet_score)
              (initial_state (firstn num_cells doublet_score)))
    with (fuel := fuel) as [delta [Hw _]]; try easy.
  - now left.
  - now apply Forall_firstn.
  - unfold bias. rewrite Ht. cbn [bind]. now rewrite log_odds_one.
  - cbn [initial_state solo_scores]. rewrite Hmean.
    unfold bias. rewrite Ht. cbn [bind].
    destruct (Req_dec_T m 1) as [->|Hne1].
    + now rewrite log_odds_one.
    + now rewrite log_odds_fin by lra.
Qed.

Lemma zero_ratio_gives_unit_scores_witness :
  calibrate 5 (Fin 0) [Fin (1 / 4)] [Fin 0] 1 =
  Some (Ok {| diff := Fin 0; counter_update := 5;
              solo_scores := repeat (Fin 1) (length (firstn 1 [Fin 0])) |}).
Proof.
  apply (zero_ratio_gives_unit_scores (1 / 4) [Fin (1 / 4)] [Fin 0] 1 5).
  - reflexivity.
  - repeat constructor.
  - apply mean_singleton.
  - lra.
  - lia.
Defined.

(** ** The direction of the correction *)


Lemma nth_map_update (c : float) (ls : list float) (i : nat) :
  (i < length ls)%nat ->
  nth i (map (update_score c) ls) NaN = update_score c (nth i ls NaN).
Proof.
  intros Hi.
  rewrite (nth_indep (map _ ls) NaN (update_score c NaN))
    by (now rewrite length_map).
  apply map_nth.
Qed.

Lemma logit_le (p q : R) :
  0 < p < 1 -> 0 < q < 1 -> p <= q -> logit p <= logit q.
Proof.
  intros Hp Hq [H| ->]; [|lra]. apply Rlt_le. now apply logit_increasing.
Qed.

(** A larger target prevalence never raises a score: after one iteration
    from the same scores (of mean in [0, 1]) each cell has, under the
    larger of two targets, a score that is smaller or equal. *)
Theorem larger_target_never_raises_scores
  (d_s d_s' m : R) (initial_score logit_scores : list float) (i : nat) :
  0 < d_s -> d_s <= d_s' -> d_s' < 1 ->
  NP.mean initial_score = Fin m -> 0 <= m <= 1 ->
  Forall finite logit_scores ->
  (i < length logit_scores)%nat ->
  exists st st',
    iterate 1 (Fin d_s) logit_scores (initial_state initial_score) = Ok st /\
    iterate 1 (Fin d_s') logit_scores (initial_state initial_score)
    = Ok st' /\
    NP.le (nth i (solo_scores st') NaN) (nth i (solo_scores st) NaN) = true.
Proof.
  intros H0 Hle H1 Hmean Hm Hfin Hi.
  cbn [iterate bind]. unfold loop_body.
  cbn [initial_state solo_scores]. rewrite Hmean.
  rewrite !bias_of_mean by lra. cbn [bind].
  do 2 eexists. split; [reflexivity|]. split; [reflexivity|].
  cbn [solo_scores].
  destruct (nth_finite logit_scores i Hfin Hi) as [l Hl].
  rewrite !(nth_map_update _ logit_scores i Hi), Hl.
  destruct (NP.Reqb m 0);
    [rewrite !update_score_ninf; apply le_fin; lra|].
  destruct (NP.Reqb m 1);
    [rewrite !update_score_pinf; apply le_fin; lra|].
  rewrite !update_score_fin.
  apply le_fin, sigmoid_le.
  assert (logit d_s <= logit d_s') by (apply logit_le; lra). lra.
Qed.

Lemma larger_target_never_raises_scores_witness :
  exists st st',
    iterate 1 (Fin (1 / 2)) [Fin 0] (initial_state [Fin (1 / 4)]) = Ok st /\
    iterate 1 (Fin (2 / 3)) [Fin 0] (initial_state [Fin (1 / 4)]) = Ok st' /\
    NP.le (nth 0 (solo_scores st') NaN) (nth 0 (solo_scores st) NaN) = true.
Proof.
  apply (larger_target_never_raises_scores (1 / 2) (2 / 3) (1 / 4)
           [Fin (1 / 4)] [Fin 0] 0).
  - lra.
  - lra.
  - lra.
  - apply mean_singleton.
  - lra.
  - repeat constructor.
  - cbn. lia.
Defined.

(** * Further properties of threshold selection *)

Lemma argsort_length (a : list float) : length (argsort a) = length a.
Proof.
  rewrite (Permutation_length (argsort_perm a)). apply length_seq.
Qed.

(** For [0 < e < n] the selection returns, whatever the scores are. *)
Lemma select_threshold_in_range (scores : list float) (e : Z) :
  (0 < e < Z.of_nat (length scores))%Z ->
  exists threshold,
    NP.max (take scores
              (firstn (Z.to_nat (Z.of_nat (length scores) - e))
                      (argsort scores))) = Ok threshold /\
    select_threshold scores (Some e) =
    Ok (NP.gt (Fin (IZR e / IZR (Z.of_nat (length scores)))) (Fin (1 / 2)),
        threshold, map (fun s => NP.gt s threshold) scores).
Proof.
  intros He. unfold select_threshold, argpartition.
  set (n := Z.of_nat (length scores)) in *.
  rewrite int_truediv_in_range
    by (try apply within_population_in_range; lia).
  cbn [bind].
  replace (0 <? n - e)%Z with true by (symmetry; apply Z.ltb_lt; lia).
  replace ((n - e <? - n) || (n <=? n - e))%Z with false.
  2:{ symmetry. apply orb_false_iff. split;
        [apply Z.ltb_ge|apply Z.leb_gt]; lia. }
  cbn [bind].
  destruct (take scores (firstn (Z.to_nat (n - e)) (argsort scores)))
    as [|x l] eqn:E.
  - apply (f_equal (@length float)) in E. unfold take in E.
    rewrite length_map, length_firstn, argsort_length in E.
    cbn in E. unfold n in *. lia.
  - cbn [NP.max bind]. eexists. split; reflexivity.
Qed.

Lemma nonempty_length_pos {A : Type} (l : list A) :
  l <> [] -> (0 < Z.of_nat (length l))%Z.
Proof. intros H. destruct l; [easy|]. cbn [length]. lia. Qed.

Lemma select_threshold_overflows (scores : list float) (e : Z) :
  scores <> [] ->
  (float_overflow_bound * Z.of_nat (length scores) <= Z.abs e)%Z ->
  select_threshold scores (Some e) = Raise OverflowError.
Proof.
  intros Hne He. pose proof (nonempty_length_pos _ Hne).
  unfold select_threshold. now rewrite int_truediv_overflow by lia.
Qed.

Lemma select_threshold_asserts (scores : list float) (e : Z) :
  scores <> [] ->
  (Z.of_nat (length scores) <= e
   < float_overflow_bound * Z.of_nat (length scores))%Z ->
  select_threshold scores (Some e) = Raise AssertionError.
Proof.
  intros Hne He. pose proof (nonempty_length_pos _ Hne).
  unfold select_threshold.
  rewrite int_truediv_in_range by lia.
  cbn [bind].
  replace (0 <? Z.of_nat (length scores) - e)%Z with false; [easy|].
  symmetry. apply Z.ltb_ge. lia.
Qed.

Lemma select_threshold_out_of_range (scores : list float) (e : Z) :
  scores <> [] ->
  (- (float_overflow_bound * Z.of_nat (length scores)) < e <= 0)%Z ->
  select_threshold scores (Some e) = Raise ValueError.
Proof.
  intros Hne He. pose proof (nonempty_length_pos _ Hne).
  unfold select_threshold, argpartition.
  rewrite int_truediv_in_range by lia.
  cbn [bind].
  replace (0 <? Z.of_nat (length scores) - e)%Z with true
    by (symmetry; apply Z.ltb_lt; lia).
  replace (Z.of_nat (length scores) <=? Z.of_nat (length scores) - e)%Z
    with true by (symmetry; apply Z.leb_le; lia).
  now rewrite orb_true_r.
Qed.

Lemma select_threshold_ok_range
  (scores : list float) (e : Z) (r : bool * float * list bool) :
  select_threshold scores (Some e) = Ok r ->
  (0 < e < Z.of_nat (length scores))%Z.
Proof.
  intros Hr.
  assert (Hne : scores <> []) by (intros ->; discriminate).
  destruct (Z.le_gt_cases
              (float_overflow_bound * Z.of_nat (length scores)) (Z.abs e))
    as [Hb|Hb];
    [rewrite (select_threshold_overflows _ _ Hne Hb) in Hr; discriminate|].
  destruct (Z.le_gt_cases e 0) as [H0|H0];
    [rewrite (select_threshold_out_of_range _ _ Hne) in Hr by lia;
     discriminate|].
  destruct (Z.le_gt_cases (Z.of_nat (length scores)) e) as [H1|H1];
    [rewrite (select_threshold_asserts _ _ Hne) in Hr by lia; discriminate|].
  lia.
Qed.


Lemma fold_max2_nan (l : list float) (x : float) :
  x = NaN \/ In NaN l -> fold_left NP.max2 l x = NaN.
Proof.
  revert x. induction l as [|a l IH]; intros x [Hx|Hin]; cbn [fold_left].
  - exact Hx.
  - easy.
  - apply IH. left. now rewrite Hx.
  - destruct Hin as [->|Hin].
    + apply IH. left. now destruct x.
    + apply IH. now right.
Qed.

Lemma max_nan (l : list float) : In NaN l -> NP.max l = Ok NaN.
Proof.
  destruct l as [|x l]; [easy|]. intros [->|H]; cbn [NP.max]; f_equal;
    apply fold_max2_nan; auto.
Qed.

Lemma nan_or_not (l : list float) : Forall not_nan l \/ In NaN l.
Proof.
  induction l as [|a l [IH|IH]].
  - left. constructor.
  - destruct a; try (left; now constructor). right. now left.
  - right. now right.
Qed.

(** No entry of an array exceeds the maximum [np.max] returns. *)
Lemma max_not_exceeded (l : list float) (t : float) :
  NP.max l = Ok t -> Forall (fun x => NP.gt x t = false) l.
Proof.
  intros Hmax. destruct (nan_or_not l) as [Hn|Hn].
  - destruct l as [|x l']; [discriminate|].
    destruct (max_spec (x :: l') ltac:(easy) Hn) as [t' [Ht' [_ [_ Hall]]]].
    rewrite Ht' in Hmax. injection Hmax as <-.
    eapply Forall_impl; [|exact Hall]. intros y Hy. unfold NP.gt.
    destruct (NP.lt t' y) eqn:E; [|easy].
    apply lt_not_le in E. congruence.
  - rewrite (max_nan l Hn) in Hmax. injection Hmax as <-.
    apply Forall_forall. intros y _. now destruct y.
Qed.

(** However the scores look, [nan] and infinities included, at most [e]
    cells are called when [0 < e < n], and none when the threshold is
    [nan]. *)
Theorem calls_never_exceed_expected (scores : list float) (e : Z) :
  (0 < e < Z.of_nat (length scores))%Z ->
  exists warned threshold,
    select_threshold scores (Some e) =
    Ok (warned, threshold, map (fun s => NP.gt s threshold) scores) /\
    (Z.of_nat (count_true (map (fun s => NP.gt s threshold) scores))
     <= e)%Z /\
    (threshold = NaN ->
     count_true (map (fun s => NP.gt s threshold) scores) = O).
Proof.
  intros He. destruct (select_threshold_in_range scores e He)
    as [t [Hmax Hsel]].
  eexists. exists t. split; [exact Hsel|].
  set (k := Z.to_nat (Z.of_nat (length scores) - e)) in *.
  rewrite count_true_map. split.
  - pose proof (take_perm scores (argsort scores) (argsort_perm scores))
      as Hperm.
    rewrite <- (count_perm _ _ _ Hperm).
    rewrite <- (firstn_skipn k (argsort scores)) at 1.
    unfold take at 1. rewrite map_app, filter_app, length_app.
    fold (take scores (firstn k (argsort scores))).
    rewrite (count_none _ _ (max_not_exceeded _ _ Hmax)).
    pose proof (count_bound (fun s => NP.gt s t)
                  (map (fun i => nth i scores NaN)
                       (skipn k (argsort scores)))) as Hb.
    rewrite length_map, length_skipn, argsort_length in Hb. lia.
  - intros ->. apply count_none. apply Forall_forall.
    intros y _. now destruct y.
Qed.

Lemma calls_never_exceed_expected_witness :
  exists warned threshold,
    select_threshold [NaN; Fin (1 / 4); PInf] (Some 1%Z) =
    Ok (warned, threshold,
        map (fun s => NP.gt s threshold) [NaN; Fin (1 / 4); PInf]) /\
    (Z.of_nat (count_true (map (fun s => NP.gt s threshold)
                               [NaN; Fin (1 / 4); PInf])) <= 1)%Z /\
    (threshold = NaN ->
     count_true (map (fun s => NP.gt s threshold)
                     [NaN; Fin (1 / 4); PInf]) = O).
Proof.
  apply (calls_never_exceed_expected [NaN; Fin (1 / 4); PInf] 1%Z).
  cbn. lia.
Defined.

(** Expecting more doublets never takes a call back: for scores without
    [nan], the threshold for a larger expected number is not above the
    threshold for a smaller one, and every cell called for the smaller
    number is called for the larger. *)
Theorem more_expected_keeps_calls (scores : list float) (e e' : Z) :
  Forall not_nan scores ->
  (0 < e <= e')%Z -> (e' < Z.of_nat (length scores))%Z ->
  exists w t w' t',
    select_threshold scores (Some e) =
    Ok (w, t, map (fun s => NP.gt s t) scores) /\
    select_threshold scores (Some e') =
    Ok (w', t', map (fun s => NP.gt s t') scores) /\
    NP.le t' t = true /\
    forall s, NP.gt s t = true -> NP.gt s t' = true.
Proof.
  intros Ha He He'.
  destruct (select_threshold_expected scores e Ha ltac:(lia))
    as [w [t [Hsel [_ [Hnt Hc]]]]].
  destruct (select_threshold_expected scores e' Ha ltac:(lia))
    as [w' [t' [Hsel' [_ [Hnt' Hc']]]]].
  exists w, t, w', t'. split; [exact Hsel|]. split; [exact Hsel'|].
  assert (Hle : NP.le t' t = true).
  { destruct (lt_total t t' Hnt Hnt') as [Hlt|[->|Hlt]].
    - exfalso.
      assert ((count_le t scores <= count_lt t' scores)%nat).
      { apply count_mono. intros x _ Hx. now apply (le_lt_trans x t t'). }
      lia.
    - now apply le_refl.
    - now apply lt_le. }
  split; [exact Hle|].
  intros s Hs. unfold NP.gt in *. now apply (le_lt_trans t' t s).
Qed.

Lemma more_expected_keeps_calls_witness :
  exists w t w' t',
    select_threshold [Fin (1 / 10); Fin (9 / 10); Fin (2 / 10)] (Some 1%Z) =
    Ok (w, t, map (fun s => NP.gt s t)
                  [Fin (1 / 10); Fin (9 / 10); Fin (2 / 10)]) /\
    select_threshold [Fin (1 / 10); Fin (9 / 10); Fin (2 / 10)] (Some 2%Z) =
    Ok (w', t', map (fun s => NP.gt s t')
                    [Fin (1 / 10); Fin (9 / 10); Fin (2 / 10)]) /\
    NP.le t' t = true /\
    forall s, NP.gt s t = true -> NP.gt s t' = true.
Proof.
  apply (more_expected_keeps_calls
           [Fin (1 / 10); Fin (9 / 10); Fin (2 / 10)] 1%Z 2%Z).
  - repeat constructor.
  - lia.
  - cbn. lia.
Defined.

(** The warning about a majority of doublets is printed exactly when the
    expected number exceeds half the number of scores. *)
Theorem warning_iff_majority
  (scores : list float) (e : Z) (warned : bool) (threshold : float)
  (calls : list bool) :
  select_threshold scores (Some e) = Ok (warned, threshold, calls) ->
  (warned = true <-> (Z.of_nat (length scores) < 2 * e)%Z).
Proof.
  intros Hsel.
  assert (He : (0 < e < Z.of_nat (length scores))%Z).
  { exact (select_threshold_ok_range _ _ _ Hsel). }
  destruct (select_threshold_in_range scores e He) as [t [_ Hsel']].
  rewrite Hsel' in Hsel. injection Hsel as <- _ _.
  rewrite Rltb_true. set (n := Z.of_nat (length scores)) in *.
  assert (Hn : 0 < IZR n) by (apply IZR_lt; lia).
  assert (E : IZR e / IZR n * IZR n = IZR e) by (field; lra).
  split.
  - intros H. apply lt_IZR. rewrite mult_IZR.
    apply (Rmult_lt_compat_r (IZR n)) in H; [|easy].
    rewrite E in H. lra.
  - intros H. apply IZR_lt in H. rewrite mult_IZR in H.
    apply (Rmult_lt_reg_r (IZR n)); [easy|].
    rewrite E. lra.
Qed.

Lemma warning_iff_majority_witness :
  exists warned,
    select_threshold
      [Fin (1 / 10); Fin (2 / 10); Fin (2 / 10); Fin (2 / 10); Fin (9 / 10)]
      (Some 2%Z)
    = Ok (warned, Fin (2 / 10), [false; false; false; false; true]) /\
    (warned = true <-> (5 < 2 * 2)%Z).
Proof.
  destruct tied_scores_one_call as [warned H]. exists warned.
  split; [exact H|].
  exact (warning_iff_majority _ _ _ _ _ H).
Defined.

(** * The uncalibrated predictions *)

Lemma argmin_row_fin (a b : R) :
  argmin_row (Fin a, Fin b)
  = if NP.gt (fst (softmax_row (Fin a, Fin b))) (Fin (1 / 2))
    then 1%nat else 0%nat.
Proof.
  rewrite softmax_row_fin. cbn [fst]. unfold argmin_row, NP.gt.
  cbn [fst snd NP.lt]. rewrite <- sigmoid_0, sigmoid_lt_iff.
  unfold NP.Rltb. destruct (Rlt_dec b a), (Rlt_dec 0 (a - b)); try easy; lra.
Qed.

(** For finite logits the label that [np.argmin] predicts never
    contradicts the uncalibrated doublet score (softmax column 0): a cell
    whose score is above 1/2 has the label 1 and a cell whose score is
    below 1/2 has the label 0.  A score of exactly 1/2 is left open: two
    logits that differ can round to it. *)
Theorem argmin_never_contradicts_softmax
  (logit_predictions : list (float * float)) :
  Forall (fun row => finite (fst row) /\ finite (snd row))
         logit_predictions ->
  Forall2 (fun label s =>
             (NP.gt s (Fin (1 / 2)) = true -> label = 1%nat) /\
             (NP.lt s (Fin (1 / 2)) = true -> label = 0%nat))
          (is_doublet_pred logit_predictions)
          (doublet_score logit_predictions).
Proof.
  unfold is_doublet_pred, doublet_score, softmax.
  induction 1 as [|[a b] l [Ha Hb] _ IH]; cbn [map]; constructor;
    [|exact IH].
  cbn in Ha, Hb.
  destruct a as [a| | |]; try discriminate.
  destruct b as [b| | |]; try discriminate.
  rewrite argmin_row_fin.
  destruct (NP.gt (fst (softmax_row (Fin a, Fin b))) (Fin (1 / 2))) eqn:E.
  - split; [reflexivity|]. intros Hlt. exfalso.
    rewrite softmax_row_fin in E, Hlt. cbn [fst] in E, Hlt.
    apply gt_fin in E. apply lt_fin in Hlt. lra.
  - split; [discriminate|reflexivity].
Qed.

Lemma argmin_never_contradicts_softmax_witness :
  Forall2 (fun label s =>
             (NP.gt s (Fin (1 / 2)) = true -> label = 1%nat) /\
             (NP.lt s (Fin (1 / 2)) = true -> label = 0%nat))
          (is_doublet_pred [(Fin 0, Fin 1); (Fin 2, Fin 1)])
          (doublet_score [(Fin 0, Fin 1); (Fin 2, Fin 1)]).
Proof.
  apply (argmin_never_contradicts_softmax [(Fin 0, Fin 1); (Fin 2, Fin 1)]).
  repeat constructor.
Defined.

(** * The run of [main] as a whole *)

Lemma calibrate_open_unit
  (doublet_ratio : R) (doublet_score logit_doublet_score : list float)
  (num_cells fuel : nat) (st : loop_state) :
  0 < doublet_ratio ->
  length doublet_score = length logit_doublet_score ->
  Forall in_open_unit doublet_score ->
  Forall finite logit_doublet_score ->
  calibrate fuel (Fin doublet_ratio) doublet_score logit_doublet_score
            num_cells = Some (Ok st) ->
  Forall in_open_unit (solo_scores st).
Proof.
  intros Hr Hlen Hu Hfin Hcal.
  pose proof (calibrate_length _ _ _ _ _ _ Hcal) as Hl.
  unfold calibrate in Hcal.
  destruct (target_prevalence_pos doublet_ratio Hr) as [Hds Hrange].
  rewrite Hds in Hcal. apply while_loop_sound in Hcal.
  destruct Hcal as [n [_ [Hi [Hf _]]]].
  destruct (firstn num_cells logit_doublet_score) as [|l0 ls'] eqn:Els.
  - destruct (solo_scores st); [constructor|discriminate].
  - rewrite <- Els in *.
    destruct n as [|n]; [cbn in Hi; injection Hi as <-; discriminate|].
    destruct (iterate_open_unit (doublet_ratio / (doublet_ratio + 1))
                (firstn num_cells logit_doublet_score)
                (initial_state (firstn num_cells doublet_score)) Hrange)
      with (n := n) as [c [st' [Hi' [_ [Ho _]]]]].
    + now apply Forall_firstn.
    + rewrite Els. discriminate.
    + cbn. now apply Forall_firstn.
    + cbn. rewrite !length_firstn. lia.
    + rewrite Hi in Hi'. injection Hi' as <-. exact Ho.
Qed.

(** [main] returns its arrays.  For finite logits, a positive doublet
    ratio below 2^53 (from 2^53 on the binary64 target prevalence is 1.0
    and the loop raises) and either no expected number of doublets or one
    strictly between 0 and the number of real cells, the run reaches line
    293 within 104 iterations of the calibration loop.  The calibrated
    scores and the calls have one entry per real cell, the scores lie in
    [0, 1], the real and the synthetic slices of the uncalibrated scores
    and of the logits make up the arrays of the whole population, and
    without an expected number the calls are the scores above 1/2. *)
Theorem main_returns
  (logit_predictions : list (float * float)) (num_cells : nat)
  (doublet_ratio : R) (expected : option Z) (fuel : nat) :
  Forall (fun row => finite (fst row) /\ finite (snd row))
         logit_predictions ->
  0 < doublet_ratio < 9007199254740992 ->
  (104 <= fuel)%nat ->
  (forall e, expected = Some e ->
     (0 < e < Z.of_nat (Nat.min num_cells (length logit_predictions)))%Z) ->
  exists out,
    main fuel logit_predictions num_cells (Fin doublet_ratio) expected
      = Some (Ok out) /\
    length (softmax_scores out)
      = Nat.min num_cells (length logit_predictions) /\
    Forall in_unit (softmax_scores out) /\
    length (is_doublet out)
      = Nat.min num_cells (length logit_predictions) /\
    no_updates_softmax_scores out ++ no_updates_softmax_scores_sim out
      = doublet_score logit_predictions /\
    logit_scores out ++ logit_scores_sim out
      = logit_doublet_score logit_predictions /\
    (expected = None ->
     is_doublet out
     = map (fun s => NP.gt s (Fin (1 / 2))) (softmax_scores out)).
Proof.
  intros Hrows [Hr _] Hfuel Hexp.
  destruct (doublet_score_in_open_unit logit_predictions Hrows)
    as [Hopen [Hfin Hlen]].
  assert (Hunit : Forall in_unit (doublet_score logit_predictions)).
  { eapply Forall_impl; [|exact Hopen].
    intros a [x [-> Hx]]. exists x. split; [easy|lra]. }
  destruct (while_loop_bounded (doublet_ratio / (doublet_ratio + 1))
              (firstn num_cells (logit_doublet_score logit_predictions))
              (initial_state
                 (firstn num_cells (doublet_score logit_predictions))))
    with (fuel := fuel) as [st [Hw _]]; try easy.
  { apply (target_prevalence_pos doublet_ratio Hr). }
  { now apply Forall_firstn. }
  { cbn. now apply Forall_firstn. }
  { cbn. rewrite !length_firstn. lia. }
  assert (Hcal : calibrate fuel (Fin doublet_ratio)
                   (doublet_score logit_predictions)
                   (logit_doublet_score logit_predictions) num_cells
                 = Some (Ok st)).
  { unfold calibrate.
    destruct (target_prevalence_pos doublet_ratio Hr) as [-> _]. exact Hw. }
  pose proof (calibrate_length _ _ _ _ _ _ Hcal) as Hl.
  rewrite length_firstn in Hl. unfold logit_doublet_score in Hl at 1.
  rewrite length_map in Hl.
  assert (Hso : Forall in_unit (solo_scores st)).
  { eapply Forall_impl;
      [|exact (calibrate_open_unit _ _ _ _ _ _ Hr Hlen Hopen Hfin Hcal)].
    intros a [x [-> Hx]]. exists x. split; [easy|lra]. }
  assert (Hsel : exists r,
            select_threshold (solo_scores st) expected = Ok r /\
            (expected = None ->
             snd r = map (fun s => NP.gt s (Fin (1 / 2))) (solo_scores st))).
  { destruct expected as [e|].
    - destruct (select_threshold_in_range (solo_scores st) e)
        as [t [_ Hs]]; [rewrite Hl; now apply Hexp|].
      eexists. split; [exact Hs|discriminate].
    - eexists. split; [reflexivity|]. reflexivity. }
  destruct Hsel as [r [Hsel Hnone]].
  pose proof (select_threshold_length _ _ _ Hsel) as Hlr.
  unfold main. rewrite Hcal, Hsel. cbn [bind].
  eexists. split; [reflexivity|].
  cbn [softmax_scores is_doublet no_updates_softmax_scores
       no_updates_softmax_scores_sim logit_scores logit_scores_sim].
  rewrite !firstn_skipn.
  repeat split; try easy.
  - rewrite length_firstn. lia.
  - intros He. rewrite firstn_all2 by lia. now apply Hnone.
Qed.

Lemma main_returns_witness :
  exists out,
    main 104 [(Fin 0, Fin 1); (Fin 2, Fin 1); (Fin 0, Fin 0)] 2 (Fin 2)
         (Some 1%Z) = Some (Ok out) /\
    length (softmax_scores out) = 2%nat /\
    length (is_doublet out) = 2%nat.
Proof.
  destruct (main_returns [(Fin 0, Fin 1); (Fin 2, Fin 1); (Fin 0, Fin 0)]
              2 2 (Some 1%Z) 104)
    as [out [H1 [H2 [_ [H3 _]]]]].
  - repeat constructor.
  - lra.
  - lia.
  - intros e He. injection He as <-. cbn. lia.
  - exists out. repeat split; assumption.
Defined.

(** ** One bad row of logits *)




(** ** No real cells *)



(** ** A single real cell *)




(** * The batch size *)

Lemma round_quarters_bounds (m : Z) :
  (4 * round_quarters m - 2 <= m <= 4 * round_quarters m + 2)%Z.
Proof.
  unfold round_quarters.
  pose proof (Z.div_mod m 4 ltac:(lia)) as Hdm.
  pose proof (Z.mod_pos_bound m 4 ltac:(lia)) as Hr.
  destruct (m mod 4 <? 2)%Z eqn:E1; [apply Z.ltb_lt in E1; lia|].
  apply Z.ltb_ge in E1.
  destruct (2 <? m mod 4)%Z eqn:E2; [apply Z.ltb_lt in E2; lia|].
  apply Z.ltb_ge in E2.
  destruct (Z.even (m / 4)); lia.
Qed.

Lemma increase_batch_size_ge (b : Z) :
  (0 <= b)%Z -> (b <= increase_batch_size b)%Z.
Proof.
  intros Hb. unfold increase_batch_size.
  pose proof (round_quarters_bounds (5 * b)). lia.
Qed.

Lemma increase_batch_size_gt (b : Z) :
  (3 <= b)%Z -> (b + 1 <= increase_batch_size b)%Z.
Proof.
  intros Hb. unfold increase_batch_size.
  pose proof (round_quarters_bounds (5 * b)). lia.
Qed.

Lemma batch_size_loop_returned (fuel : nat) (num_cells : Z) :
  forall batch_size b',
  batch_size_loop fuel num_cells batch_size = Some (Ok b') ->
  b' <> 0%Z /\ (num_cells mod b')%Z <> 1%Z /\
  ((0 < batch_size)%Z -> (batch_size <= b')%Z).
Proof.
  induction fuel as [|fuel IH]; intros b b' H;
    cbn [batch_size_loop] in H;
    destruct (b =? 0)%Z eqn:E0; try discriminate;
    destruct (num_cells mod b =? 1)%Z eqn:E1; try discriminate;
    apply Z.eqb_neq in E0.
  - injection H as <-. apply Z.eqb_neq in E1. repeat split; try easy; lia.
  - destruct (IH _ _ H) as [H1 [H2 H3]]. repeat split; try easy.
    intros Hpos. pose proof (increase_batch_size_ge b ltac:(lia)). lia.
  - injection H as <-. apply Z.eqb_neq in E1. repeat split; try easy; lia.
Qed.

(** What the loop returns.  A non-zero batch size that leaves no remainder
    of 1 is returned unchanged; a batch size of 0 raises; and whenever the
    loop returns a batch size, it is non-zero, leaves a remainder other
    than 1, and is not below a positive initial one. *)
Theorem batch_size_loop_result (fuel : nat) (num_cells batch_size : Z) :
  (batch_size <> 0%Z -> (num_cells mod batch_size)%Z <> 1%Z ->
   batch_size_loop fuel num_cells batch_size = Some (Ok batch_size)) /\
  (batch_size = 0%Z ->
   batch_size_loop fuel num_cells batch_size
   = Some (Raise ZeroDivisionError)) /\
  (forall b', batch_size_loop fuel num_cells batch_size = Some (Ok b') ->
     b' <> 0%Z /\ (num_cells mod b')%Z <> 1%Z /\
     ((0 < batch_size)%Z -> (batch_size <= b')%Z)).
Proof.
  split; [|split].
  - intros Hb Hm. destruct fuel; cbn [batch_size_loop];
      rewrite (proj2 (Z.eqb_neq _ _) Hb), (proj2 (Z.eqb_neq _ _) Hm);
      reflexivity.
  - intros ->. destruct fuel; reflexivity.
  - apply batch_size_loop_returned.
Qed.

(** The loop does not terminate for a batch size of 2 and an odd number of
    cells: 2.5 rounds back to 2, so the batch size never changes. *)
Theorem batch_size_two_never_grows (num_cells : Z) :
  (num_cells mod 2)%Z = 1%Z ->
  increase_batch_size 2 = 2%Z /\
  forall fuel, batch_size_loop fuel num_cells 2 = None.
Proof.
  intros Hodd. split; [reflexivity|].
  induction fuel as [|fuel IH]; cbn [batch_size_loop];
    rewrite Hodd; cbn; [reflexivity|exact IH].
Qed.

Lemma batch_size_two_never_grows_witness :
  batch_size_loop 1000 5 2 = None.
Proof.
  exact (proj2 (batch_size_two_never_grows 5 eq_refl) 1000%nat).
Defined.

Lemma batch_size_loop_fuel (fuel : nat) (num_cells : Z) :
  (0 <= num_cells)%Z -> num_cells <> 1%Z ->
  forall batch_size,
    (3 <= batch_size)%Z ->
    (Z.to_nat (num_cells + 1 - batch_size) <= fuel)%nat ->
    exists b',
      batch_size_loop fuel num_cells batch_size = Some (Ok b') /\
      (batch_size <= b')%Z.
Proof.
  intros Hn Hn1. induction fuel as [|fuel IH]; intros b Hb Hfuel;
    cbn [batch_size_loop];
    rewrite (proj2 (Z.eqb_neq b 0) ltac:(lia));
    destruct (num_cells mod b =? 1)%Z eqn:E1;
    try (exists b; split; [reflexivity|lia]);
    apply Z.eqb_eq in E1;
    assert (Hle : (b <= num_cells)%Z)
      by (destruct (Z.le_gt_cases b num_cells) as [H|H]; [easy|];
          rewrite Z.mod_small in E1 by lia; lia).
  - lia.
  - pose proof (increase_batch_size_gt b Hb) as Hinc.
    destruct (IH (increase_batch_size b)) as [b' [Hl Hb']]; [lia|lia|].
    exists b'. split; [exact Hl|lia].
Qed.

(** The loop terminates for every batch size from 3 on, the default of 128
    included, unless there is exactly one cell: [num_cells] rounds are
    enough, and the batch size returned is not below the initial one and
    leaves a remainder other than 1. *)
Theorem batch_size_loop_terminates (fuel : nat) (num_cells batch_size : Z) :
  (0 <= num_cells)%Z -> num_cells <> 1%Z -> (3 <= batch_size)%Z ->
  (Z.to_nat num_cells <= fuel)%nat ->
  exists b',
    batch_size_loop fuel num_cells batch_size = Some (Ok b') /\
    (batch_size <= b')%Z /\ (num_cells mod b')%Z <> 1%Z.
Proof.
  intros Hn Hn1 Hb Hfuel.
  destruct (batch_size_loop_fuel fuel num_cells Hn Hn1 batch_size Hb)
    as [b' [Hl Hb']]; [lia|].
  exists b'. split; [exact Hl|]. split; [exact Hb'|].
  now apply (batch_size_loop_returned fuel num_cells batch_size b').
Qed.

Lemma batch_size_loop_terminates_witness :
  exists b',
    batch_size_loop 1025 1025 128 = Some (Ok b') /\
    (128 <= b')%Z /\ (1025 mod b')%Z <> 1%Z.
Proof.
  apply (batch_size_loop_terminates 1025 1025 128); lia.
Defined.

(** With 1025 cells the default batch size of 128 would leave a batch of
    one example; the loop moves it to 160. *)
Example batch_size_1025 : batch_size_loop 1 1025 128 = Some (Ok 160%Z).
Proof. reflexivity. Qed.

(** * The parameters handed to the embedding model *)

Module ParamsFacts.
Import Stdlib.Strings.String.
Import Params.
Local Open Scope string_scope.

Lemma dict_get_set (d : dict) (k k' : string) (v : json) :
  dict_get (dict_set d k v) k' = if k =? k' then Some v else dict_get d k'.
Proof.
  induction d as [|[k0 v0] d IH]; cbn [dict_set dict_get].
  - reflexivity.
  - destruct (String.eqb_spec k0 k) as [->|Hne]; cbn [dict_get].
    + destruct (String.eqb_spec k k'); reflexivity.
    + rewrite IH. destruct (String.eqb_spec k0 k') as [->|Hne'].
      * destruct (String.eqb_spec k k'); [congruence|reflexivity].
      * reflexivity.
Qed.

Lemma dict_get_copied (params : dict) (names : list string) :
  forall (d0 : dict) (k : string),
  dict_get (fold_left (copy_param params) names d0) k =
  if existsb (String.eqb k) names then
    match dict_get params k with
    | Some v => Some v
    | None => dict_get d0 k
    end
  else dict_get d0 k.
Proof.
  induction names as [|par names IH]; intros d0 k; cbn [fold_left existsb].
  - reflexivity.
  - rewrite IH. unfold copy_param.
    destruct (String.eqb_spec k par) as [->|Hne]; cbn [orb].
    + destruct (dict_get params par) as [v|] eqn:E.
      * rewrite dict_get_set, String.eqb_refl.
        now destruct (existsb (String.eqb par) names).
      * now destruct (existsb (String.eqb par) names).
    + destruct (dict_get params par) as [v|] eqn:E; [|reflexivity].
      rewrite dict_get_set.
      destruct (String.eqb_spec par k) as [->|_]; [easy|reflexivity].
Qed.

(** What the embedding model receives.  [n_batch] is always set: to 0 when
    the value of [ignore_batch] is true in Python's sense, to the number of
    batches of the data otherwise, also when the file has an entry
    [n_batch] of its own.  The five recognised entries are passed on as
    they are in the file, and every other entry of the file is dropped. *)
Theorem vae_params_lookup (params : dict) (n_batches : Z) (k : string) :
  dict_get (vae_params params n_batches) k =
  if k =? "n_batch" then
    Some (JInt (if truthy (ignore_batch params) then 0%Z else n_batches))
  else if existsb (String.eqb k) vae_param_names then dict_get params k
  else None.
Proof.
  unfold vae_params. rewrite dict_get_set, dict_get_copied.
  rewrite (String.eqb_sym "n_batch" k).
  destruct (k =? "n_batch"); [reflexivity|].
  destruct (existsb (String.eqb k) vae_param_names); [|reflexivity].
  now destruct (dict_get params k).
Qed.

End ParamsFacts.

(** * The format of the data file *)

Module PathsFacts.
Import Stdlib.Strings.Ascii Stdlib.Strings.String.
Import Paths.

Lemma rfind_bounds (c : ascii) (p : str) :
  (-1 <= rfind c p < Z.of_nat (List.length p))%Z.
Proof.
  induction p as [|a p IH]; cbn [rfind List.length]; [lia|].
  destruct (0 <=? rfind c p)%Z eqn:E.
  - apply Z.leb_le in E. lia.
  - destruct (Ascii.eqb a c); lia.
Qed.

Lemma rfind_app (c : ascii) (a b : str) :
  rfind c (a ++ b) =
  if (0 <=? rfind c b)%Z then (Z.of_nat (List.length a) + rfind c b)%Z
  else rfind c a.
Proof.
  induction a as [|x a IH]; cbn [app rfind List.length].
  - destruct (0 <=? rfind c b)%Z eqn:E; [lia|].
    apply Z.leb_gt in E. pose proof (rfind_bounds c b). lia.
  - rewrite IH. destruct (0 <=? rfind c b)%Z eqn:E.
    + apply Z.leb_le in E.
      replace (0 <=? Z.of_nat (List.length a) + rfind c b)%Z with true
        by (symmetry; apply Z.leb_le; lia).
      lia.
    + reflexivity.
Qed.

Lemma rfind_absent (c : ascii) (p : str) : ~ In c p -> rfind c p = (-1)%Z.
Proof.
  induction p as [|a p IH]; cbn [rfind]; [easy|]. intros H.
  rewrite IH by (intros Hin; apply H; now right). cbn.
  destruct (Ascii.eqb_spec a c) as [->|_]; [|reflexivity].
  exfalso. apply H. now left.
Qed.


Lemma splitext_join (p : str) : fst (splitext p) ++ snd (splitext p) = p.
Proof.
  unfold splitext. destruct (_ && _); cbn [fst snd].
  - apply firstn_skipn.
  - apply app_nil_r.
Qed.

Lemma str_eqb_eq (a b : str) : str_eqb a b = true <-> a = b.
Proof. unfold str_eqb. destruct (list_eq_dec ascii_dec a b); easy. Qed.

(** Only paths that end in [.loom] or [.h5ad] are read; every other path
    raises the [TypeError]. *)
Theorem read_data_suffix (data_path : str) :
  (read_data data_path = ReadLoom ->
   data_path = fst (splitext data_path) ++ loom_ext) /\
  (read_data data_path = ReadH5ad ->
   data_path = fst (splitext data_path) ++ h5ad_ext) /\
  (read_data data_path <> RaiseTypeError ->
   exists root, data_path = root ++ loom_ext \/ data_path = root ++ h5ad_ext).
Proof.
  pose proof (splitext_join data_path) as Hj. unfold read_data.
  destruct (str_eqb (snd (splitext data_path)) loom_ext) eqn:E1.
  - apply str_eqb_eq in E1. rewrite E1 in Hj.
    repeat split; try easy. intros _. eauto.
  - destruct (str_eqb (snd (splitext data_path)) h5ad_ext) eqn:E2.
    + apply str_eqb_eq in E2. rewrite E2 in Hj.
      repeat split; try easy. intros _. eauto.
    + repeat split; easy.
Qed.

Lemma splitext_no_dot_in_name (dir name : str) :
  ~ In "."%char name ->
  snd (splitext name) = [] /\
  snd (splitext (dir ++ "/"%char :: name)) = [].
Proof.
  intros Hno. split.
  - unfold splitext. rewrite (rfind_absent "."%char name Hno).
    pose proof (rfind_bounds "/"%char name).
    replace (rfind "/"%char name <? -1)%Z with false
      by (symmetry; apply Z.ltb_ge; lia).
    reflexivity.
  - unfold splitext. rewrite !rfind_app.
    assert (Hd : rfind "."%char ("/"%char :: name) = (-1)%Z).
    { apply rfind_absent. intros [H|H]; [discriminate|easy]. }
    rewrite Hd. cbn [Z.leb Z.compare].
    assert (Hs : (0 <= rfind "/"%char ("/"%char :: name))%Z).
    { cbn [rfind]. destruct (0 <=? rfind "/"%char name)%Z eqn:E.
      - apply Z.leb_le in E. lia.
      - cbn. lia. }
    rewrite (proj2 (Z.leb_le _ _) Hs).
    pose proof (rfind_bounds "."%char dir).
    replace (_ <? _)%Z with false by (symmetry; apply Z.ltb_ge; lia).
    reflexivity.
Qed.

(** A path whose last component contains no dot, such as a directory, is
    not read: it raises the [TypeError]. *)
Theorem read_data_rejects_dotless_name (dir name : str) :
  ~ In "."%char name ->
  read_data name = RaiseTypeError /\
  read_data (dir ++ "/"%char :: name) = RaiseTypeError.
Proof.
  intros Hno. destruct (splitext_no_dot_in_name dir name Hno) as [H1 H2].
  unfold read_data. rewrite H1, H2. split; reflexivity.
Qed.

Lemma read_data_rejects_dotless_name_witness :
  read_data (list_ascii_of_string "filtered_matrices") = RaiseTypeError /\
  read_data (list_ascii_of_string "data" ++
             "/"%char :: list_ascii_of_string "filtered_matrices")
  = RaiseTypeError.
Proof.
  apply (read_data_rejects_dotless_name (list_ascii_of_string "data")
           (list_ascii_of_string "filtered_matrices")).
  cbn. intuition discriminate.
Defined.




(** The comparison is case-sensitive, and a file name made of an
    extension alone has no extension. *)
Example read_data_examples :
  read_data (list_ascii_of_string "run1/cells.h5ad") = ReadH5ad /\
  read_data (list_ascii_of_string "cells.H5AD") = RaiseTypeError /\
  read_data (list_ascii_of_string "run1/.h5ad") = RaiseTypeError /\
  read_data (list_ascii_of_string "run.1/cells") = RaiseTypeError.
Proof. repeat split; vm_compute; reflexivity. Qed.

End PathsFacts.
